(** * Bonsai behaviour trees: a shallow embedding of the node execution model

    The development follows the C++ sources:
    - [Status], [Blackboard], [Action], [Selector], [Parallel], [Builder] and
      [Bonsai]: the header listing in the design notes (namespace [abt]);
    - [Node]: node.hpp; [Sequence]: sequence.hpp (the version with [halted_]);
    - [Decorator] and the [decorators] factories: nodes/decorator.hpp.

    Mutable objects are modelled by explicit state passing: a member function
    takes the object and returns the updated object.  A parent holds its
    children by value, so the node graph is a tree (no child is shared), and a
    child's tick acts on the child itself and on the blackboard only.

    Every class with children is instrumented with a call log that records,
    in order, the virtual calls it makes on its children.  The log is ghost
    state: no modelled function reads it. *)

From Stdlib Require Import ZArith SpecFloat.
From stdpp Require Import gmap strings list.
From Equations Require Import Equations.
From Equations.Prop Require Import Logic.

Set Default Proof Using "Type".
Open Scope Z_scope.
Open Scope nat_scope.

(** ** status.hpp *)

Inductive Status := Success | Failure | Running | Idle.

Global Instance Status_eq_dec : EqDecision Status.
Proof. solve_decision. Defined.

(** ** C++ exceptions: a call either returns a value or throws *)

Inductive exn := bad_any_cast | runtime_error (what : string).

Inductive outcome (A : Type) := Returns (a : A) | Throws (e : exn).
Arguments Returns {A} a.
Arguments Throws {A} e.

(** Sequencing: an exception thrown by the first part skips the rest. *)
Global Instance outcome_ret : MRet outcome := λ A a, Returns a.
Global Instance outcome_bind : MBind outcome := λ A B k m,
  match m with
  | Returns a => k a
  | Throws e => Throws e
  end.

(** [try { body } catch (...) { handler }] *)
Definition try_catch {A} (body : outcome A) (handler : exn → outcome A)
    : outcome A :=
  match body with
  | Returns a => Returns a
  | Throws e => handler e
  end.

(** ** blackboard.hpp *)

(** The types a [std::any] may hold: run-time type identifiers with decidable
    equality (the [typeid] comparison of [any_cast]) and, for each, the Rocq
    type of its values. *)
Class TypeInfo := {
  type_id : Type;
  type_id_eq_dec :: EqDecision type_id;
  value_of : type_id → Type
}.

Section Blackboard.
Context `{TypeInfo}.

(** [std::any]: a value together with the identifier of its type. *)
Record any := make_any { any_type : type_id; any_value : value_of any_type }.

(** [std::any_cast<T>(a)] throws [bad_any_cast] unless [a] holds a [T]. *)
Definition any_cast (T : type_id) (a : any) : outcome (value_of T) :=
  match decide (any_type a = T) with
  | left e => Returns (eq_rect (any_type a) value_of (any_value a) T e)
  | right _ => Throws bad_any_cast
  end.

(** [std::unordered_map<std::string, std::any> data_]; the mutex guards
    each call as a whole, so a call is a function of the map. *)
Record Blackboard := { data_ : gmap string any }.

Definition Blackboard_new : Blackboard := {| data_ := ∅ |}.

(** [data_[key] = std::make_any<T>(std::move(value))] *)
Definition set (T : type_id) (key : string) (value : value_of T)
    (b : Blackboard) : Blackboard :=
  {| data_ := <[key := make_any T value]> (data_ b) |}.

(** [get<T>]: what the call returns to its caller, or the exception that
    escapes it.  [it != data_.end()] is [data_ b !! key] being [Some]. *)
Definition get (T : type_id) (key : string) (b : Blackboard)
    : outcome (option (value_of T)) :=
  match data_ b !! key with
  | Some a => try_catch (v ← any_cast T a; mret (Some v))
                        (λ _, mret None)
  | None => mret None
  end.
End Blackboard.

Arguments any_cast {_} T a.
Arguments set {_} T key value b.
Arguments get {_} T key b.

(** ** node.hpp *)

(** The abstract class [Node]: the three virtual member functions.  A tick
    may update the node and the blackboard it is handed; whatever else a
    node's closures capture is part of the node's own state. *)
Class Node `{TypeInfo} (C : Type) := {
  tick : C → Blackboard → C * Blackboard * Status;
  reset : C → C;
  halt : C → C
}.

(** The call log of a composite: which child (by position in [children_]) was
    called, with the status a [tick] returned. *)
Inductive Call :=
| CallTick (i : nat) (st : Status)
| CallReset (i : nat)
| CallHalt (i : nat).

Global Instance Call_eq_dec : EqDecision Call.
Proof. solve_decision. Defined.

(** What a [tick] leaves behind: the updated node, the blackboard, the status
    returned and the calls made on the children. *)
Record Ticked (C : Type) `{TypeInfo} := mkTicked {
  after : C;
  board : Blackboard;
  result : Status;
  calls : list Call
}.
Arguments mkTicked {C _} after board result calls.
Arguments after {C _} t.
Arguments board {C _} t.
Arguments result {C _} t.
Arguments calls {C _} t.

(** The children a log says were ticked, in order. *)
Definition ticked (log : list Call) : list nat :=
  omap (λ c, match c with CallTick i _ => Some i | _ => None end) log.

(** The children a log says were reset, in order. *)
Definition reset_targets (log : list Call) : list nat :=
  omap (λ c, match c with CallReset i => Some i | _ => None end) log.

(** The statuses a log says the ticks returned, in order. *)
Definition returned (log : list Call) : list Status :=
  omap (λ c, match c with CallTick _ st => Some st | _ => None end) log.

(** The first child a log says returned [st] from its tick. *)
Definition first_to_return (st : Status) (log : list Call) : option nat :=
  head (omap (λ c, match c with
                   | CallTick i st' => if decide (st' = st) then Some i else None
                   | _ => None
                   end) log).

(** A call is prepended to the log of what follows it. *)
Definition logged {C} `{TypeInfo} (c : Call) (r : Ticked C) : Ticked C :=
  mkTicked (after r) (board r) (result r) (c :: calls r).

(** The caller's loop: [n] ticks in a row, each on what the previous one
    left. *)
Fixpoint ticks {X} `{TypeInfo} (tk : X → Blackboard → Ticked X) (n : nat)
    (x : X) (bb : Blackboard) : list (Ticked X) :=
  match n with
  | 0 => []
  | S n' => let r := tk x bb in r :: ticks tk n' (after r) (board r)
  end.

(** A node that returns [st] from every tick, whatever it is handed and
    however often it has been ticked. *)
Definition always_returns `{Node C} (st : Status) (c : C) : Prop :=
  ∃ I : C → Prop,
    I c ∧ ∀ c' bb, I c' → (tick c' bb).2 = st ∧ I (tick c' bb).1.1.

(** The statuses the nodes [cs] return when they are ticked one after the
    other in list order, each on the blackboard the one before it left. *)
Fixpoint outcomes `{Node C} (cs : list C) (bb : Blackboard) : list Status :=
  match cs with
  | [] => []
  | c :: cs' => (tick c bb).2 :: outcomes cs' (tick c bb).1.2
  end.

(** The log of ticking consecutive children, the first at position [from],
    that returned the statuses [sts]. *)
Fixpoint tick_log (from : nat) (sts : list Status) : list Call :=
  match sts with
  | [] => []
  | st :: sts' => CallTick from st :: tick_log (S from) sts'
  end.

(** Where the traversal of a Sequence ends, given the statuses its children
    return in order: at the first [Failure] or [Running], if there is one. *)
Definition sequence_stop (sts : list Status) : option (nat * Status) :=
  list_find (λ st, st = Failure ∨ st = Running) sts.

(** Where the traversal of a Selector ends: at the first [Success] or
    [Running], if there is one. *)
Definition selector_stop (sts : list Status) : option (nat * Status) :=
  list_find (λ st, st = Success ∨ st = Running) sts.

(** ** action.hpp *)

(** A [std::function] is code together with what it captured.  Calling it may
    update the captured state (a counter taken by reference, a [mutable]
    lambda) as well as its argument. *)
Module Action.
Section Action.
Context `{TypeInfo} {F : Type}.

Record t := mk {
  func_ : F → Blackboard → F * Blackboard * Status;
  captured : F
}.

(** [return func_(blackboard);] *)
Definition tick (a : t) (bb : Blackboard) : t * Blackboard * Status :=
  let '(env, bb', st) := func_ a (captured a) bb in
  (mk (func_ a) env, bb', st).

(** [reset] and [halt] are the defaults of [Node]: empty bodies. *)
Global Instance node : Node t := @Build_Node _ t tick id id.
End Action.
Arguments t {_} F.
Arguments mk {_ F} func_ captured.
End Action.

(** Children of different classes under one parent: a child is of one class
    or of the other. *)
Global Instance sum_node `{TypeInfo} {A B : Type} `{!Node A, !Node B}
    : Node (A + B) :=
  {| tick := λ c bb,
       match c with
       | inl a => let '(a', bb', st) := tick a bb in (inl a', bb', st)
       | inr b => let '(b', bb', st) := tick b bb in (inr b', bb', st)
       end;
     reset := λ c, match c with
                   | inl a => inl (reset a)
                   | inr b => inr (reset b)
                   end;
     halt := λ c, match c with
                  | inl a => inl (halt a)
                  | inr b => inr (halt b)
                  end |}.

(** ** sequence.hpp *)

Module Sequence.
Section Sequence.
Context `{TypeInfo} {C : Type} `{!Node C}.

Record t := mk {
  children_ : list C;
  currentIndex_ : nat;
  halted_ : bool
}.

Definition new : t := mk [] 0 false.

Definition addChild (child : C) (s : t) : t :=
  mk (children_ s ++ [child]) (currentIndex_ s) (halted_ s).

(** [reset()] and [halt()]: the updated sequence and the calls made on the
    children, one per child in vector order. *)
Definition reset_calls (s : t) : t * list Call :=
  (mk (reset <$> children_ s) 0 false,
   CallReset <$> seq 0 (length (children_ s))).

Definition halt_calls (s : t) : t * list Call :=
  (mk (halt <$> children_ s) (currentIndex_ s) true,
   CallHalt <$> seq 0 (length (children_ s))).

(** [children_[currentIndex_]->tick(blackboard)] updates that child in place. *)
Definition with_child (s : t) (child : C) : t :=
  mk (<[currentIndex_ s := child]> (children_ s)) (currentIndex_ s) (halted_ s).

(** [++currentIndex_] *)
Definition advance (s : t) : t :=
  mk (children_ s) (S (currentIndex_ s)) (halted_ s).

(** The [while] loop of [tick] and the two statements after it.
    [children_ s !! currentIndex_ s] is [Some] exactly when
    [currentIndex_ < children_.size()]. *)
Equations? seq_loop (s : t) (bb : Blackboard) : Ticked t
    by wf (length (children_ s) - currentIndex_ s) lt :=
  seq_loop s bb with inspect (children_ s !! currentIndex_ s) := {
    | exist _ None _ =>
        let '(s', rs) := reset_calls s in
        mkTicked s' bb Success rs
    | exist _ (Some child) Hlt with inspect (tick child bb) := {
        | exist _ (child', bb', Running) _ =>
            mkTicked (with_child s child') bb' Running
                     [CallTick (currentIndex_ s) Running]
        | exist _ (child', bb', Failure) _ =>
            let '(s', rs) := reset_calls (with_child s child') in
            mkTicked s' bb' Failure (CallTick (currentIndex_ s) Failure :: rs)
        | exist _ (child', bb', status) _ =>
            logged (CallTick (currentIndex_ s) status)
                   (seq_loop (advance (with_child s child')) bb')
      }
  }.
Proof.
  all: apply lookup_lt_Some in Hlt; cbn; rewrite length_insert; lia.
Qed.

Definition tick_calls (s : t) (bb : Blackboard) : Ticked t :=
  if halted_ s then mkTicked s bb Failure []
  else seq_loop s bb.

Global Instance node : Node t :=
  {| tick := λ s bb, let r := tick_calls s bb in (after r, board r, result r);
     reset := λ s, (reset_calls s).1;
     halt := λ s, (halt_calls s).1 |}.
End Sequence.
Arguments t C : clear implicits.
Arguments mk {C} children_ currentIndex_ halted_.
End Sequence.

(** ** selector.hpp *)

Module Selector.
Section Selector.
Context `{TypeInfo} {C : Type} `{!Node C}.

Record t := mk {
  children_ : list C;
  currentIndex_ : nat
}.

Definition new : t := mk [] 0.

Definition addChild (child : C) (s : t) : t :=
  mk (children_ s ++ [child]) (currentIndex_ s).

Definition reset_calls (s : t) : t * list Call :=
  (mk (reset <$> children_ s) 0,
   CallReset <$> seq 0 (length (children_ s))).

Definition with_child (s : t) (child : C) : t :=
  mk (<[currentIndex_ s := child]> (children_ s)) (currentIndex_ s).

Definition advance (s : t) : t :=
  mk (children_ s) (S (currentIndex_ s)).

(** The [while] loop of [tick] and the two statements after it. *)
Equations? sel_loop (s : t) (bb : Blackboard) : Ticked t
    by wf (length (children_ s) - currentIndex_ s) lt :=
  sel_loop s bb with inspect (children_ s !! currentIndex_ s) := {
    | exist _ None _ =>
        let '(s', rs) := reset_calls s in
        mkTicked s' bb Failure rs
    | exist _ (Some child) Hlt with inspect (tick child bb) := {
        | exist _ (child', bb', Running) _ =>
            mkTicked (with_child s child') bb' Running
                     [CallTick (currentIndex_ s) Running]
        | exist _ (child', bb', Success) _ =>
            let '(s', rs) := reset_calls (with_child s child') in
            mkTicked s' bb' Success (CallTick (currentIndex_ s) Success :: rs)
        | exist _ (child', bb', status) _ =>
            logged (CallTick (currentIndex_ s) status)
                   (sel_loop (advance (with_child s child')) bb')
      }
  }.
Proof.
  all: apply lookup_lt_Some in Hlt; cbn; rewrite length_insert; lia.
Qed.

Definition tick_calls (s : t) (bb : Blackboard) : Ticked t :=
  sel_loop s bb.

(** [halt] is not overridden: the default of [Node]. *)
Global Instance node : Node t :=
  {| tick := λ s bb, let r := tick_calls s bb in (after r, board r, result r);
     reset := λ s, (reset_calls s).1;
     halt := id |}.
End Selector.
Arguments t C : clear implicits.
Arguments mk {C} children_ currentIndex_.
End Selector.

(** ** parallel.hpp *)

Module Parallel.

Inductive Policy := RequireAll | RequireOne.

Global Instance Policy_eq_dec : EqDecision Policy.
Proof. solve_decision. Defined.

Section Parallel.
Context `{TypeInfo} {C : Type} `{!Node C}.

Record t := mk {
  children_ : list C;
  successPolicy_ : Policy;
  failurePolicy_ : Policy
}.

Definition new (s f : Policy) : t := mk [] s f.

Definition addChild (child : C) (p : t) : t :=
  mk (children_ p ++ [child]) (successPolicy_ p) (failurePolicy_ p).

(** The [for] loop of [tick] over the children from position [i] on:
    the updated children, the blackboard, the two counters and the calls. *)
Fixpoint tick_children (cs : list C) (i : nat) (bb : Blackboard)
    (success failure : nat) : list C * Blackboard * nat * nat * list Call :=
  match cs with
  | [] => ([], bb, success, failure, [])
  | c :: cs' =>
      let '(c', bb', s) := tick c bb in
      let '(success', failure') :=
        match s with
        | Success => (S success, failure)
        | Failure => (success, S failure)
        | _ => (success, failure)
        end in
      let '(cs'', bb'', success'', failure'', log) :=
        tick_children cs' (S i) bb' success' failure' in
      (c' :: cs'', bb'', success'', failure'', CallTick i s :: log)
  end.

(** The condition of either [if] after the loop, for one policy and the
    matching counter. *)
Definition satisfied (policy : Policy) (count size : nat) : bool :=
  (bool_decide (policy = RequireAll) && bool_decide (count = size))
  || (bool_decide (policy = RequireOne) && bool_decide (0 < count)).

Definition tick_calls (p : t) (bb : Blackboard) : Ticked t :=
  let '(cs, bb', success, failure, log) :=
    tick_children (children_ p) 0 bb 0 0 in
  let status :=
    if satisfied (successPolicy_ p) success (length (children_ p)) then Success
    else if satisfied (failurePolicy_ p) failure (length (children_ p))
         then Failure
         else Running in
  mkTicked (mk cs (successPolicy_ p) (failurePolicy_ p)) bb' status log.

Definition reset_calls (p : t) : t * list Call :=
  (mk (reset <$> children_ p) (successPolicy_ p) (failurePolicy_ p),
   CallReset <$> seq 0 (length (children_ p))).

Global Instance node : Node t :=
  {| tick := λ p bb, let r := tick_calls p bb in (after r, board r, result r);
     reset := λ p, (reset_calls p).1;
     halt := id |}.
End Parallel.
Arguments t C : clear implicits.
Arguments mk {C} children_ successPolicy_ failurePolicy_.
End Parallel.

(** ** decorator.hpp *)

(** [std::function<Status(Status)>]: code together with what it captured.
    Whatever the closure reads besides its argument (a shared counter, the
    readings it will get from the clock) is part of the captured state. *)
Record Func (F : Type) := mkFunc {
  code : F → Status → F * Status;
  env : F
}.
Arguments mkFunc {F} code env.
Arguments code {F} f.
Arguments env {F} f.

(** [func_(status)] *)
Definition call {F} (f : Func F) (status : Status) : Func F * Status :=
  let '(e, r) := code f (env f) status in (mkFunc (code f) e, r).

Module Decorator.
Section Decorator.
Context `{TypeInfo} {F C : Type} `{!Node C}.

Record t := mk {
  func_ : Func F;
  child_ : C;
  halted_ : bool
}.

(** The constructor [Decorator(Func func, NodePtr child)]. *)
Definition new (func : Func F) (child : C) : t := mk func child false.

(** [tick]; the single child is child 0 in the call log. *)
Definition tick_calls (d : t) (bb : Blackboard) : Ticked t :=
  if halted_ d then mkTicked d bb Failure []
  else
    let '(child', bb', childStatus) := tick (child_ d) bb in
    let '(func', r) := call (func_ d) childStatus in
    mkTicked (mk func' child' (halted_ d)) bb' r [CallTick 0 childStatus].

Definition reset_calls (d : t) : t * list Call :=
  (mk (func_ d) (reset (child_ d)) false, [CallReset 0]).

Definition halt_calls (d : t) : t * list Call :=
  (mk (func_ d) (halt (child_ d)) true, [CallHalt 0]).

Global Instance node : Node t :=
  {| tick := λ d bb, let r := tick_calls d bb in (after r, board r, result r);
     reset := λ d, (reset_calls d).1;
     halt := λ d, (halt_calls d).1 |}.
End Decorator.
Arguments t F C : clear implicits.
Arguments mk {F C} func_ child_ halted_.
End Decorator.

(** *** Machine numbers and the clock *)

(** [int]: 32 bits, two's complement.  Signed overflow is undefined in C++;
    the model wraps. *)
Definition int_wrap (z : Z) : Z :=
  ((z + 2 ^ 31) `mod` 2 ^ 32 - 2 ^ 31)%Z.

(** The 64-bit count of a [std::chrono] duration. *)
Definition int64_wrap (z : Z) : Z :=
  ((z + 2 ^ 63) `mod` 2 ^ 64 - 2 ^ 63)%Z.

(** [float]: IEEE 754 binary32. *)
Definition float := spec_float.
Definition float_prec : Z := 24.
Definition float_emax : Z := 128.

(** Conversion of an integer to [float], rounding to nearest even. *)
Definition float_of_Z (z : Z) : float :=
  binary_normalize float_prec float_emax z 0 false.

Definition float_div (x y : float) : float := SFdiv float_prec float_emax x y.
Definition float_lt (x y : float) : bool := SFltb x y.

(** [x >= y] on [float]: false when either is a NaN. *)
Definition float_ge (x y : float) : bool :=
  match SFcompare x y with
  | Some (Gt | Eq) => true
  | _ => false
  end.

(** [std::chrono::steady_clock::time_point]: the count of nanoseconds since
    the clock's epoch; the default-constructed [time_point{}] is the epoch. *)
Definition time_point := Z.
Definition epoch : time_point := 0%Z.

(** The steady clock as a closure sees it: the readings its successive calls
    of [steady_clock::now()] return, and how many it has taken. *)
Record steady_clock := mkClock {
  readings : nat → time_point;
  taken : nat
}.

Definition steady_clock_now (clk : steady_clock) : time_point * steady_clock :=
  (readings clk (taken clk), mkClock (readings clk) (S (taken clk))).

(** [duration_cast<milliseconds>(later - earlier).count()]: the cast divides
    the nanosecond count by 10^6, truncating toward zero. *)
Definition milliseconds_between (earlier later : time_point) : Z :=
  (int64_wrap (later - earlier) `quot` 1000000)%Z.

(** [duration_cast<milliseconds>(now - then).count() / 1000.0f] *)
Definition elapsed_seconds (earlier later : time_point) : float :=
  float_div (float_of_Z (milliseconds_between earlier later))
            (float_of_Z 1000).

(** *** The decorator factories *)

Module decorators.

Definition Inverter : Func unit :=
  mkFunc (λ _ status,
            (tt, if decide (status = Success) then Failure
                 else if decide (status = Failure) then Success
                 else status)) tt.

Definition Succeeder : Func unit :=
  mkFunc (λ _ status,
            (tt, if decide (status ≠ Running) then Success else Running)) tt.

Definition Failer : Func unit :=
  mkFunc (λ _ status,
            (tt, if decide (status ≠ Running) then Failure else Running)) tt.

(** The lambda of [Repeat]; the captured state is [*attempts]. *)
Definition Repeat_code (maxTimes : Z) (attempts : Z) (status : Status)
    : Z * Status :=
  if decide (status = Running) then (attempts, Running)
  else if decide (status = Success) then (0%Z, Success)
  else if decide (status = Failure) then
    let attempts := int_wrap (attempts + 1) in
    if decide (0 < maxTimes ∧ maxTimes ≤ attempts)%Z
    then (0%Z, Failure)
    else (attempts, Running)
  else (attempts, status).

(** [Repeat(maxTimes)]: [attempts] starts at 0. *)
Definition Repeat (maxTimes : Z) : Func Z :=
  mkFunc (Repeat_code maxTimes) 0%Z.

(** What the lambda of [Cooldown] captures and consults. *)
Record CooldownEnv := mkCooldown {
  lastSuccess : time_point;
  clock : steady_clock
}.

(** The lambda of [Cooldown]. *)
Definition Cooldown_code (seconds : float) (e : CooldownEnv) (status : Status)
    : CooldownEnv * Status :=
  let '(now, clk) := steady_clock_now (clock e) in
  if decide (status = Success) then (mkCooldown now clk, Success)
  else
    let e' := mkCooldown (lastSuccess e) clk in
    if decide (lastSuccess e ≠ epoch) then
      let elapsed := elapsed_seconds (lastSuccess e) now in
      if float_lt elapsed seconds then (e', Failure)
      else (e', status)
    else (e', status).

(** [Cooldown(seconds)]: [lastSuccess] starts at the epoch. *)
Definition Cooldown (seconds : float) (clk : steady_clock)
    : Func CooldownEnv :=
  mkFunc (Cooldown_code seconds) (mkCooldown epoch clk).

(** What the lambda of [Timeout] captures and consults. *)
Record TimeoutEnv := mkTimeout {
  startTime : time_point;
  timer_clock : steady_clock
}.

(** The lambda of [Timeout]. *)
Definition Timeout_code (seconds : float) (e : TimeoutEnv) (status : Status)
    : TimeoutEnv * Status :=
  let '(now, clk) := steady_clock_now (timer_clock e) in
  let startTime := if decide (startTime e = epoch) then now else startTime e in
  let elapsed := elapsed_seconds startTime now in
  if float_ge elapsed seconds then (mkTimeout epoch clk, Failure)
  else if decide (status ≠ Running) then (mkTimeout epoch clk, status)
  else (mkTimeout startTime clk, status).

(** [Timeout(seconds)]: [startTime] starts at the epoch. *)
Definition Timeout (seconds : float) (clk : steady_clock)
    : Func TimeoutEnv :=
  mkFunc (Timeout_code seconds) (mkTimeout epoch clk).

End decorators.

(** ** tree.hpp and builder.hpp *)

(** The builder hands out [std::shared_ptr]s and keeps some of them on its
    stack while the same nodes are children of other nodes; the nodes it has
    made therefore live in a store, and a [NodePtr] is an address in it or
    null. *)
Definition NodePtr := option nat.
Definition nullptr : NodePtr := None.

Module Builder.
Section Builder.
Context `{TypeInfo} {AF DF : Type}.

Inductive object :=
| ActionObj (a : Action.t AF)
| SequenceObj (s : Sequence.t NodePtr)
| SelectorObj (s : Selector.t NodePtr)
| ParallelObj (p : Parallel.t NodePtr)
| DecoratorObj (d : Decorator.t DF NodePtr).

(** [class Bonsai]: the root, the blackboard, and the store the root
    points into. *)
Record Bonsai := mkBonsai {
  nodes : list object;
  tree_root_ : NodePtr;
  blackboard_ : Blackboard
}.

Record t := mk {
  store : list object;
  root_ : NodePtr;
  stack_ : list NodePtr;
  decorators_ : list (Func DF)
}.

(** [Builder()] *)
Definition new : t := mk [] nullptr [] [].

(** [std::make_shared<T>(...)]: a fresh address. *)
Definition make_shared (o : object) (b : t) : NodePtr * t :=
  (Some (length (store b)),
   mk (store b ++ [o]) (root_ b) (stack_ b) (decorators_ b)).

Definition deref (b : t) (p : NodePtr) : option object :=
  a ← p; store b !! a.

Definition assign (p : NodePtr) (o : object) (b : t) : t :=
  match p with
  | Some a => mk (<[a := o]> (store b)) (root_ b) (stack_ b) (decorators_ b)
  | None => b
  end.

(** [add]: the chain of [dynamic_pointer_cast]s has no final [else]. *)
Definition add (n : NodePtr) (b : t) : t :=
  match last (stack_ b) with
  | None => mk (store b) n (stack_ b) (decorators_ b)
  | Some parent =>
      match deref b parent with
      | Some (SequenceObj s) =>
          assign parent (SequenceObj (Sequence.addChild n s)) b
      | Some (SelectorObj s) =>
          assign parent (SelectorObj (Selector.addChild n s)) b
      | Some (ParallelObj p) =>
          assign parent (ParallelObj (Parallel.addChild n p)) b
      | _ => b
      end
  end.

Definition push (n : NodePtr) (b : t) : t :=
  mk (store b) (root_ b) (stack_ b ++ [n]) (decorators_ b).

Definition sequence (b : t) : t :=
  let '(n, b) := make_shared (SequenceObj Sequence.new) b in
  push n (add n b).

Definition selector (b : t) : t :=
  let '(n, b) := make_shared (SelectorObj Selector.new) b in
  push n (add n b).

Definition parallel (s f : Parallel.Policy) (b : t) : t :=
  let '(n, b) := make_shared (ParallelObj (Parallel.new s f)) b in
  push n (add n b).

Definition decorator (func : Func DF) (b : t) : t :=
  mk (store b) (root_ b) (stack_ b) (decorators_ b ++ [func]).

(** The [while (!decorators_.empty())] loop of [action], on the pending
    decorators from the back of the vector to its front. *)
Fixpoint wrap (back_to_front : list (Func DF)) (node : NodePtr) (b : t)
    : NodePtr * t :=
  match back_to_front with
  | [] => (node, b)
  | func :: rest =>
      let '(node', b') :=
        make_shared (DecoratorObj (Decorator.new func node)) b in
      wrap rest node' b'
  end.

Definition action (func : Action.t AF) (b : t) : t :=
  let '(node, b) := make_shared (ActionObj func) b in
  let '(node, b) := wrap (reverse (decorators_ b)) node b in
  add node (mk (store b) (root_ b) (stack_ b) []).

(** [end]: named [end_] here, [end] being a keyword. *)
Definition end_ (b : t) : t :=
  if decide (stack_ b ≠ [])
  then mk (store b) (root_ b) (removelast (stack_ b)) (decorators_ b)
  else b.

(** [Bonsai build() { return Bonsai(root_); }] *)
Definition build (b : t) : outcome Bonsai :=
  Returns (mkBonsai (store b) (root_ b) Blackboard_new).

(** The node kinds [add] can attach a child to. *)
Definition accepts_children (o : option object) : Prop :=
  match o with
  | Some (SequenceObj _ | SelectorObj _ | ParallelObj _) => True
  | _ => False
  end.

(** The builders a caller can obtain: [Builder()] followed by any chain of
    the public member functions. *)
Inductive reachable : t → Prop :=
| reach_new : reachable new
| reach_sequence b : reachable b → reachable (sequence b)
| reach_selector b : reachable b → reachable (selector b)
| reach_parallel s f b : reachable b → reachable (parallel s f b)
| reach_decorator func b : reachable b → reachable (decorator func b)
| reach_action func b : reachable b → reachable (action func b)
| reach_end b : reachable b → reachable (end_ b).
End Builder.
Arguments t {_} AF DF.
Arguments object {_} AF DF.
Arguments Bonsai {_} AF DF.
Arguments new {_ AF DF}.
End Builder.

(** ** Concrete nodes for the examples *)

Inductive cpp_type := t_int | t_bool | t_string.

Global Instance cpp_type_eq_dec : EqDecision cpp_type.
Proof. solve_decision. Defined.

Definition cpp_value (T : cpp_type) : Type :=
  match T with t_int => Z | t_bool => bool | t_string => string end.

Definition cpp_types : TypeInfo :=
  {| type_id := cpp_type; value_of := cpp_value |}.

(** A blackboard as [Blackboard()] leaves it. *)
Definition empty_board : @Blackboard cpp_types := Blackboard_new.

(** The value of [bb.get<int>(key).value_or(dflt)]. *)
Definition get_int_or (key : string) (dflt : Z) (bb : @Blackboard cpp_types)
    : Z :=
  match @get cpp_types t_int key bb with
  | Returns (Some n) => n
  | _ => dflt
  end.

(** An action that returns the statuses of a script one after the other
    (and [Idle] once the script is used up), leaving the blackboard alone. *)
Definition scripted (script : list Status)
    : @Action.t cpp_types (list Status) :=
  Action.mk (λ l bb, match l with
                     | [] => ([], bb, Idle)
                     | st :: l' => (l', bb, st)
                     end) script.

(** An action that counts its calls on the blackboard under ["count"] and
    always returns [st]. *)
Definition counting (st : Status) : @Action.t cpp_types unit :=
  Action.mk (λ _ bb,
    (tt, @set cpp_types t_int "count" (get_int_or "count" 0 bb + 1)%Z bb, st))
    tt.

(** What [Repeat(maxTimes)] returns, and the counter it leaves, on [n]
    failures in a row starting from the counter value [attempts]. *)
Fixpoint repeat_failures (maxTimes attempts : Z) (n : nat)
    : list (Status * Z) :=
  match n with
  | 0 => []
  | S n' =>
      let '(attempts', st) :=
        decorators.Repeat_code maxTimes attempts Failure in
      (st, attempts') :: repeat_failures maxTimes attempts' n'
  end.

(** The three actions of the test "Actions modify blackboard". *)
Definition step_actions : list (@Action.t cpp_types unit) :=
  [ Action.mk (λ _ bb, (tt, @set cpp_types t_int "step" 1%Z bb, Success)) tt;
    Action.mk (λ _ bb,
      (tt, @set cpp_types t_int "step"
             (int_wrap (get_int_or "step" 0 bb + 1)) bb,
       Success)) tt;
    Action.mk (λ _ bb,
      (tt, @set cpp_types t_int "final_step" (get_int_or "step" 0 bb) bb,
       Success)) tt ].

(** [0.5f] *)
Definition half_second : float := float_div (float_of_Z 1) (float_of_Z 2).

(** A clock whose readings start one second after its epoch and are one
    millisecond apart. *)
Definition millisecond_clock : steady_clock :=
  mkClock (λ n, (1000000000 + 1000000 * Z.of_nat n)%Z) 0.

(** ** Constructions used to state further properties *)

(** The Sequence over the same children as a Selector, each wrapped in an
    Inverter decorator, at the same cursor. *)
Definition inverted_sequence `{TypeInfo} {C : Type} `{!Node C}
    (s : Selector.t C) : Sequence.t (Decorator.t unit C) :=
  Sequence.mk (Decorator.new decorators.Inverter <$> Selector.children_ s)
              (Selector.currentIndex_ s) false.

(** A node that returns [st] from no tick. *)
Definition never_returns `{Node C} (st : Status) (c : C) : Prop :=
  ∃ I : C → Prop,
    I c ∧ ∀ c' bb, I c' → (tick c' bb).2 ≠ st ∧ I (tick c' bb).1.1.

(** A node ticked on its own, as a [Ticked] with no calls logged. *)
Definition tick_alone `{Node C} (c : C) (bb : Blackboard) : Ticked C :=
  mkTicked (tick c bb).1.1 (tick c bb).1.2 (tick c bb).2 [].

(** [0.0f] *)
Definition float_zero : float := float_of_Z 0.

(** The child list of a node in the builder's store; empty for a node that
    has none. *)
Definition children_of `{TypeInfo} {AF DF : Type}
    (o : option (Builder.object AF DF)) : list NodePtr :=
  match o with
  | Some (Builder.SequenceObj s) => Sequence.children_ s
  | Some (Builder.SelectorObj s) => Selector.children_ s
  | Some (Builder.ParallelObj p) => Parallel.children_ p
  | _ => []
  end.

(** The pointers a node in the builder's store holds. *)
Definition pointers_of `{TypeInfo} {AF DF : Type}
    (o : Builder.object AF DF) : list NodePtr :=
  match o with
  | Builder.DecoratorObj d => [Decorator.child_ d]
  | _ => children_of (Some o)
  end.

(** A pointer that is not null and whose address is below [size]. *)
Definition points_below (size : nat) (p : NodePtr) : Prop :=
  match p with
  | Some a => a < size
  | None => False
  end.

(** A builder none of whose pointers dangles: every pointer held by a node
    of the store or by the stack of open composites is an address of the
    store, and so is the root unless it is null. *)
Definition no_dangling_pointer `{TypeInfo} {AF DF : Type}
    (b : Builder.t AF DF) : Prop :=
  let size := length (Builder.store b) in
  Forall (λ o, Forall (points_below size) (pointers_of o)) (Builder.store b)
  ∧ Forall (points_below size) (Builder.stack_ b)
  ∧ (Builder.root_ b = nullptr ∨ points_below size (Builder.root_ b)).

(** * Properties *)

(** In a goal that matches on a term, use the equation that says which case
    the term is in. *)
Ltac rewrite_scrutinee :=
  repeat match goal with
    | E : ?x = _ |- context [match ?x with _ => _ end] => rewrite E
    end.

(** Decide a closed decidable proposition by evaluation. *)
Ltac by_evaluation := apply (bool_decide_unpack _); vm_compute; exact I.

(** ** The call log *)

Lemma ticked_tick i st (log : list Call) :
  ticked (CallTick i st :: log) = i :: ticked log.
Proof. reflexivity. Qed.

Lemma reset_targets_tick i st (log : list Call) :
  reset_targets (CallTick i st :: log) = reset_targets log.
Proof. reflexivity. Qed.

Lemma first_to_return_tick st i st' (log : list Call) :
  first_to_return st (CallTick i st' :: log) =
    if decide (st' = st) then Some i else first_to_return st log.
Proof. unfold first_to_return. cbn. by destruct (decide (st' = st)). Qed.

Lemma ticked_resets (l : list nat) : ticked (CallReset <$> l) = [].
Proof. induction l; auto. Qed.

Lemma reset_targets_resets (l : list nat) : reset_targets (CallReset <$> l) = l.
Proof. induction l; cbn; f_equal; auto. Qed.

Lemma first_to_return_resets st (l : list nat) :
  first_to_return st (CallReset <$> l) = None.
Proof. induction l; auto. Qed.

Lemma first_to_return_elem st i (log : list Call) :
  first_to_return st log = Some i → CallTick i st ∈ log.
Proof.
  unfold first_to_return. induction log as [|c log IH]; cbn; [done|].
  destruct c as [j st'| |]; cbn; [|by right; auto..].
  destruct (decide (st' = st)) as [->|]; cbn.
  - intros [= ->]. left.
  - right; auto.
Qed.

Lemma returned_tick i st (log : list Call) :
  returned (CallTick i st :: log) = st :: returned log.
Proof. reflexivity. Qed.

Lemma returned_resets (l : list nat) : returned (CallReset <$> l) = [].
Proof. induction l; auto. Qed.

Lemma tick_log_app from (l1 l2 : list Status) :
  tick_log from (l1 ++ l2) = tick_log from l1 ++ tick_log (from + length l1) l2.
Proof.
  revert from. induction l1 as [|st l1 IH]; intros from; cbn.
  - by rewrite Nat.add_0_r.
  - by rewrite IH, Nat.add_succ_r.
Qed.

Lemma ticked_tick_log from (l : list Status) (rest : list Call) :
  ticked (tick_log from l ++ rest) = seq from (length l) ++ ticked rest.
Proof.
  revert from. induction l as [|st l IH]; intros from; [done|].
  cbn [tick_log app length seq]. by rewrite ticked_tick, IH.
Qed.

Lemma returned_tick_log from (l : list Status) (rest : list Call) :
  returned (tick_log from l ++ rest) = l ++ returned rest.
Proof.
  revert from. induction l as [|st l IH]; intros from; [done|].
  cbn [tick_log app]. by rewrite returned_tick, IH.
Qed.

Lemma length_tick_log from (l : list Status) :
  length (tick_log from l) = length l.
Proof. revert from. induction l; intros; cbn; auto. Qed.

(** The first position at which [l] holds [st] is the first child the log
    says returned [st]. *)
Lemma first_to_return_tick_log st from (l : list Status) (m : nat)
    (rest : list Call) :
  l !! m = Some st →
  (∀ k st', k < m → l !! k = Some st' → st' ≠ st) →
  first_to_return st (tick_log from l ++ rest) = Some (from + m).
Proof.
  revert from m. induction l as [|st' l IH]; intros from m Hm Hbefore; [done|].
  cbn [tick_log app]. rewrite first_to_return_tick.
  destruct m as [|m].
  - injection Hm as ->. by rewrite decide_True, Nat.add_0_r.
  - rewrite decide_False by (apply (Hbefore 0); [lia|done]).
    rewrite (IH (S from) m); [f_equal; lia|done|].
    intros k st'' Hk. apply (Hbefore (S k)). lia.
Qed.

(** ** Sequence *)

Module SequenceFacts.
Import Sequence.
Section SequenceFacts.
Context `{TypeInfo} {C : Type} `{!Node C}.

(** The loop, one iteration unfolded. *)
Lemma seq_loop_eq (s : t C) (bb : Blackboard) :
  seq_loop s bb =
    match children_ s !! currentIndex_ s with
    | None => mkTicked (reset_calls s).1 bb Success (reset_calls s).2
    | Some child =>
        let '(child', bb', status) := tick child bb in
        match status with
        | Running => mkTicked (with_child s child') bb' Running
                              [CallTick (currentIndex_ s) Running]
        | Failure => mkTicked (reset_calls (with_child s child')).1 bb' Failure
                       (CallTick (currentIndex_ s) Failure
                          :: (reset_calls (with_child s child')).2)
        | _ => logged (CallTick (currentIndex_ s) status)
                      (seq_loop (advance (with_child s child')) bb')
        end
    end.
Proof.
  funelim (seq_loop s bb); rewrite_scrutinee; reflexivity.
Qed.

(** Induction over the iterations of the loop. *)
Lemma seq_loop_ind (P : t C → Blackboard → Ticked (t C) → Prop) :
  (∀ s bb, children_ s !! currentIndex_ s = None →
     P s bb (mkTicked (reset_calls s).1 bb Success (reset_calls s).2)) →
  (∀ s bb child child' bb',
     children_ s !! currentIndex_ s = Some child →
     tick child bb = (child', bb', Running) →
     P s bb (mkTicked (with_child s child') bb' Running
                      [CallTick (currentIndex_ s) Running])) →
  (∀ s bb child child' bb',
     children_ s !! currentIndex_ s = Some child →
     tick child bb = (child', bb', Failure) →
     P s bb (mkTicked (reset_calls (with_child s child')).1 bb' Failure
               (CallTick (currentIndex_ s) Failure
                  :: (reset_calls (with_child s child')).2))) →
  (∀ s bb child child' bb' st,
     children_ s !! currentIndex_ s = Some child →
     tick child bb = (child', bb', st) →
     st ≠ Running → st ≠ Failure →
     P (advance (with_child s child')) bb'
       (seq_loop (advance (with_child s child')) bb') →
     P s bb (logged (CallTick (currentIndex_ s) st)
               (seq_loop (advance (with_child s child')) bb'))) →
  ∀ s bb, P s bb (seq_loop s bb).
Proof.
  intros Hexit Hrun Hfail Hnext s.
  remember (length (children_ s) - currentIndex_ s) as k eqn:Hk.
  revert s Hk.
  induction k as [k IH] using lt_wf_ind.
  intros s Hk bb. rewrite seq_loop_eq.
  destruct (children_ s !! currentIndex_ s) as [child|] eqn:Hc.
  2: { by apply Hexit. }
  destruct (tick child bb) as [[child' bb'] st] eqn:Ht.
  assert (Hlt : currentIndex_ s < length (children_ s))
    by (eapply lookup_lt_Some; eassumption).
  assert (Hdec : length (children_ (advance (with_child s child')))
                 - currentIndex_ (advance (with_child s child')) < k).
  { cbn. rewrite length_insert. lia. }
  destruct st.
  - eapply Hnext; eauto.
  - eapply Hfail; eauto.
  - eapply Hrun; eauto.
  - eapply Hnext; eauto.
Qed.

Lemma seq_loop_length (s : t C) (bb : Blackboard) :
  length (children_ (after (seq_loop s bb))) = length (children_ s).
Proof.
  revert s bb.
  apply (seq_loop_ind
           (λ s _ r, length (children_ (after r)) = length (children_ s)));
    intros; cbn in *; rewrite ?length_fmap, ?length_insert in *; congruence.
Qed.

(** The loop ticks consecutive children, starting at the cursor. *)
Lemma seq_loop_ticked (s : t C) (bb : Blackboard) :
  ∃ k, ticked (calls (seq_loop s bb)) = seq (currentIndex_ s) k.
Proof.
  revert s bb.
  apply (seq_loop_ind
           (λ s _ r, ∃ k, ticked (calls r) = seq (currentIndex_ s) k));
    intros s bb; cbn [calls logged reset_calls fst snd].
  - exists 0. apply ticked_resets.
  - by exists 1.
  - exists 1. by rewrite ticked_tick, ticked_resets.
  - intros child child' bb' st _ _ _ _ [k Hk]. exists (S k).
    by rewrite ticked_tick, Hk.
Qed.

(** A child returning [Running] ends the tick with the cursor on it. *)
Lemma seq_loop_running (s : t C) (bb : Blackboard) (j : nat) :
  CallTick j Running ∈ calls (seq_loop s bb) →
  result (seq_loop s bb) = Running
  ∧ currentIndex_ (after (seq_loop s bb)) = j
  ∧ halted_ (after (seq_loop s bb)) = halted_ s
  ∧ currentIndex_ s ≤ j < length (children_ s).
Proof.
  revert s bb.
  apply (seq_loop_ind
           (λ s _ r, CallTick j Running ∈ calls r →
                     result r = Running
                     ∧ currentIndex_ (after r) = j
                     ∧ halted_ (after r) = halted_ s
                     ∧ currentIndex_ s ≤ j < length (children_ s)));
    intros s bb; cbn.
  - intros _ Hin. apply list_elem_of_fmap in Hin as (? & ? & _). done.
  - intros child child' bb' Hc _ Hin. apply lookup_lt_Some in Hc.
    apply list_elem_of_singleton in Hin as [= ->]. auto with lia.
  - intros child child' bb' _ _ Hin.
    apply elem_of_cons in Hin as [[=]|Hin].
    apply list_elem_of_fmap in Hin as (? & ? & _). done.
  - intros child child' bb' st Hc _ Hr _ IH Hin.
    apply elem_of_cons in Hin as [[= -> <-]|Hin]; [done|].
    destruct (IH Hin) as (? & ? & ? & Hj). cbn in *.
    rewrite length_insert in Hj. auto with lia.
Qed.

(** A child returning [Failure] ends the tick: the children from the cursor
    up to it were ticked once each, then the sequence was reset. *)
Lemma seq_loop_failure (s : t C) (bb : Blackboard) (i : nat) :
  first_to_return Failure (calls (seq_loop s bb)) = Some i →
  result (seq_loop s bb) = Failure
  ∧ currentIndex_ s ≤ i
  ∧ ticked (calls (seq_loop s bb))
    = seq (currentIndex_ s) (S i - currentIndex_ s)
  ∧ drop (S i - currentIndex_ s) (calls (seq_loop s bb))
    = CallReset <$> seq 0 (length (children_ s))
  ∧ currentIndex_ (after (seq_loop s bb)) = 0
  ∧ halted_ (after (seq_loop s bb)) = false
  ∧ ∃ cs, children_ (after (seq_loop s bb)) = reset <$> cs
          ∧ length cs = length (children_ s)
          ∧ ∀ k, i < k → cs !! k = children_ s !! k.
Proof.
  revert s bb.
  apply (seq_loop_ind
    (λ s _ r, first_to_return Failure (calls r) = Some i →
       result r = Failure
       ∧ currentIndex_ s ≤ i
       ∧ ticked (calls r) = seq (currentIndex_ s) (S i - currentIndex_ s)
       ∧ drop (S i - currentIndex_ s) (calls r)
         = CallReset <$> seq 0 (length (children_ s))
       ∧ currentIndex_ (after r) = 0
       ∧ halted_ (after r) = false
       ∧ ∃ cs, children_ (after r) = reset <$> cs
               ∧ length cs = length (children_ s)
               ∧ ∀ k, i < k → cs !! k = children_ s !! k));
    intros s bb; cbn [calls logged reset_calls fst snd after result
                      with_child advance children_ currentIndex_ halted_].
  - intros _. by rewrite first_to_return_resets.
  - intros child child' bb' _ _. by rewrite first_to_return_tick.
  - intros child child' bb' _ _. rewrite first_to_return_tick.
    destruct (decide (Failure = Failure)); [|done].
    intros [= <-]. rewrite ticked_tick, ticked_resets, length_insert,
      Nat.sub_succ_l, Nat.sub_diag by lia.
    repeat split; auto.
    exists (<[currentIndex_ s := child']> (children_ s)).
    rewrite length_insert. repeat split; auto.
    intros k Hk. apply list_lookup_insert_ne. lia.
  - intros child child' bb' st _ _ _ Hst IH. rewrite first_to_return_tick.
    destruct (decide (st = Failure)); [done|]. intros Hi.
    destruct (IH Hi) as (Hr & Hle & Htk & Hrs & Hci & Hh & cs & Hcs & Hlen & Hk).
    cbn in Hle, Htk, Hrs, Hlen, Hk. rewrite length_insert in Hrs, Hlen.
    rewrite ticked_tick, Htk.
    replace (S i - currentIndex_ s) with (S (S i - S (currentIndex_ s)))
      by lia.
    repeat split; auto; try lia.
    exists cs. repeat split; auto.
    intros k Hik. rewrite Hk by done. apply list_lookup_insert_ne. lia.
Qed.

(** With the cursor in range, the loop begins by ticking the child there. *)
Lemma seq_loop_head (s : t C) (bb : Blackboard) (child : C) :
  children_ s !! currentIndex_ s = Some child →
  ∃ rest, calls (seq_loop s bb)
          = CallTick (currentIndex_ s) (tick child bb).2 :: rest.
Proof.
  intros Hc. rewrite seq_loop_eq, Hc.
  destruct (tick child bb) as [[child' bb'] []]; cbn; eauto.
Qed.

(** The children from the cursor on, with the child at the cursor first. *)
Lemma drop_cursor (s : t C) (child : C) :
  children_ s !! currentIndex_ s = Some child →
  drop (currentIndex_ s) (children_ s)
  = child :: drop (S (currentIndex_ s)) (children_ s).
Proof. intros Hc. by rewrite (drop_S _ _ _ Hc). Qed.

(** The whole tick in terms of what the children from the cursor on return:
    they are ticked in order up to the first that returns [Failure] or
    [Running]; [Running] ends the tick there, [Failure] and the end of the
    list are followed by the reset of every child. *)
Lemma seq_loop_log (s : t C) (bb : Blackboard) :
  let os := outcomes (drop (currentIndex_ s) (children_ s)) bb in
  let resets := CallReset <$> seq 0 (length (children_ s)) in
  match sequence_stop os with
  | None =>
      result (seq_loop s bb) = Success
      ∧ calls (seq_loop s bb) = tick_log (currentIndex_ s) os ++ resets
  | Some (m, st) =>
      result (seq_loop s bb) = st
      ∧ calls (seq_loop s bb)
        = tick_log (currentIndex_ s) (take (S m) os)
          ++ (if decide (st = Running) then [] else resets)
  end.
Proof.
  revert s bb.
  apply (seq_loop_ind
    (λ s bb r,
       let os := outcomes (drop (currentIndex_ s) (children_ s)) bb in
       let resets := CallReset <$> seq 0 (length (children_ s)) in
       match sequence_stop os with
       | None =>
           result r = Success
           ∧ calls r = tick_log (currentIndex_ s) os ++ resets
       | Some (m, st) =>
           result r = st
           ∧ calls r = tick_log (currentIndex_ s) (take (S m) os)
                       ++ (if decide (st = Running) then [] else resets)
       end)); intros s bb; cbv zeta.
  - intros Hc. apply lookup_ge_None in Hc. by rewrite drop_ge.
  - intros child child' bb' Hc Ht. rewrite (drop_cursor s child Hc).
    cbn [outcomes]. rewrite Ht. unfold sequence_stop. cbn [list_find snd].
    rewrite decide_True by auto. done.
  - intros child child' bb' Hc Ht. rewrite (drop_cursor s child Hc).
    cbn [outcomes]. rewrite Ht. unfold sequence_stop. cbn [list_find snd].
    rewrite decide_True by auto. cbn. by rewrite length_insert.
  - intros child child' bb' st Hc Ht Hrun Hfail.
    rewrite (drop_cursor s child Hc).
    cbn [outcomes advance with_child children_ currentIndex_].
    rewrite Ht. cbn [fst snd].
    rewrite drop_insert_lt, length_insert by lia.
    unfold sequence_stop. cbn [list_find].
    rewrite decide_False by (intros [?|?]; done).
    destruct (list_find _ (outcomes _ bb')) as [[m st']|];
      cbn [fmap option_fmap option_map prod_map fst snd id logged result calls
             take tick_log app];
      intros [-> ->]; done.
Qed.
End SequenceFacts.
End SequenceFacts.

(** ** Selector *)

Module SelectorFacts.
Import Selector.
Section SelectorFacts.
Context `{TypeInfo} {C : Type} `{!Node C}.

(** The loop, one iteration unfolded. *)
Lemma sel_loop_eq (s : t C) (bb : Blackboard) :
  sel_loop s bb =
    match children_ s !! currentIndex_ s with
    | None => mkTicked (reset_calls s).1 bb Failure (reset_calls s).2
    | Some child =>
        let '(child', bb', status) := tick child bb in
        match status with
        | Running => mkTicked (with_child s child') bb' Running
                              [CallTick (currentIndex_ s) Running]
        | Success => mkTicked (reset_calls (with_child s child')).1 bb' Success
                       (CallTick (currentIndex_ s) Success
                          :: (reset_calls (with_child s child')).2)
        | _ => logged (CallTick (currentIndex_ s) status)
                      (sel_loop (advance (with_child s child')) bb')
        end
    end.
Proof.
  funelim (sel_loop s bb); rewrite_scrutinee; reflexivity.
Qed.

(** Induction over the iterations of the loop. *)
Lemma sel_loop_ind (P : t C → Blackboard → Ticked (t C) → Prop) :
  (∀ s bb, children_ s !! currentIndex_ s = None →
     P s bb (mkTicked (reset_calls s).1 bb Failure (reset_calls s).2)) →
  (∀ s bb child child' bb',
     children_ s !! currentIndex_ s = Some child →
     tick child bb = (child', bb', Running) →
     P s bb (mkTicked (with_child s child') bb' Running
                      [CallTick (currentIndex_ s) Running])) →
  (∀ s bb child child' bb',
     children_ s !! currentIndex_ s = Some child →
     tick child bb = (child', bb', Success) →
     P s bb (mkTicked (reset_calls (with_child s child')).1 bb' Success
               (CallTick (currentIndex_ s) Success
                  :: (reset_calls (with_child s child')).2))) →
  (∀ s bb child child' bb' st,
     children_ s !! currentIndex_ s = Some child →
     tick child bb = (child', bb', st) →
     st ≠ Running → st ≠ Success →
     P (advance (with_child s child')) bb'
       (sel_loop (advance (with_child s child')) bb') →
     P s bb (logged (CallTick (currentIndex_ s) st)
               (sel_loop (advance (with_child s child')) bb'))) →
  ∀ s bb, P s bb (sel_loop s bb).
Proof.
  intros Hexit Hrun Hsucc Hnext s.
  remember (length (children_ s) - currentIndex_ s) as k eqn:Hk.
  revert s Hk.
  induction k as [k IH] using lt_wf_ind.
  intros s Hk bb. rewrite sel_loop_eq.
  destruct (children_ s !! currentIndex_ s) as [child|] eqn:Hc.
  2: { by apply Hexit. }
  destruct (tick child bb) as [[child' bb'] st] eqn:Ht.
  assert (Hlt : currentIndex_ s < length (children_ s))
    by (eapply lookup_lt_Some; eassumption).
  assert (Hdec : length (children_ (advance (with_child s child')))
                 - currentIndex_ (advance (with_child s child')) < k).
  { cbn. rewrite length_insert. lia. }
  destruct st.
  - eapply Hsucc; eauto.
  - eapply Hnext; eauto.
  - eapply Hrun; eauto.
  - eapply Hnext; eauto.
Qed.

(** The loop ticks consecutive children, starting at the cursor. *)
Lemma sel_loop_ticked (s : t C) (bb : Blackboard) :
  ∃ k, ticked (calls (sel_loop s bb)) = seq (currentIndex_ s) k.
Proof.
  revert s bb.
  apply (sel_loop_ind
           (λ s _ r, ∃ k, ticked (calls r) = seq (currentIndex_ s) k));
    intros s bb; cbn [calls logged reset_calls fst snd].
  - exists 0. apply ticked_resets.
  - by exists 1.
  - exists 1. by rewrite ticked_tick, ticked_resets.
  - intros child child' bb' st _ _ _ _ [k Hk]. exists (S k).
    by rewrite ticked_tick, Hk.
Qed.

(** A child returning [Running] ends the tick with the cursor on it. *)
Lemma sel_loop_running (s : t C) (bb : Blackboard) (j : nat) :
  CallTick j Running ∈ calls (sel_loop s bb) →
  result (sel_loop s bb) = Running
  ∧ currentIndex_ (after (sel_loop s bb)) = j
  ∧ currentIndex_ s ≤ j < length (children_ (after (sel_loop s bb))).
Proof.
  revert s bb.
  apply (sel_loop_ind
           (λ s _ r, CallTick j Running ∈ calls r →
                     result r = Running
                     ∧ currentIndex_ (after r) = j
                     ∧ currentIndex_ s ≤ j < length (children_ (after r))));
    intros s bb; cbn.
  - intros _ Hin. apply list_elem_of_fmap in Hin as (? & ? & _). done.
  - intros child child' bb' Hc _ Hin. apply lookup_lt_Some in Hc.
    apply list_elem_of_singleton in Hin as [= ->].
    rewrite length_insert. auto with lia.
  - intros child child' bb' _ _ Hin.
    apply elem_of_cons in Hin as [[=]|Hin].
    apply list_elem_of_fmap in Hin as (? & ? & _). done.
  - intros child child' bb' st Hc _ Hr _ IH Hin.
    apply elem_of_cons in Hin as [[= -> <-]|Hin]; [done|].
    destruct (IH Hin) as (? & ? & Hj). auto with lia.
Qed.

(** With the cursor in range, the loop begins by ticking the child there. *)
Lemma sel_loop_head (s : t C) (bb : Blackboard) (child : C) :
  children_ s !! currentIndex_ s = Some child →
  ∃ rest, calls (sel_loop s bb)
          = CallTick (currentIndex_ s) (tick child bb).2 :: rest.
Proof.
  intros Hc. rewrite sel_loop_eq, Hc.
  destruct (tick child bb) as [[child' bb'] []]; cbn; eauto.
Qed.
End SelectorFacts.
End SelectorFacts.

(** * The claims *)

(** C1 (running resumption).  When a child of a Sequence or of a Selector,
    ticked at cursor position [j], returns [Running], the tick returns
    [Running] and leaves the cursor at [j]; the next tick begins by ticking
    the child at [j] (in the state its [Running] tick left it in) and ticks
    no child before [j]. *)
Theorem running_resumption `{TypeInfo} {C : Type} `{!Node C} :
  (∀ (s : Sequence.t C) (bb : Blackboard) (j : nat),
     CallTick j Running ∈ calls (Sequence.tick_calls s bb) →
     let r := Sequence.tick_calls s bb in
     result r = Running
     ∧ Sequence.currentIndex_ (after r) = j
     ∧ ∃ child, Sequence.children_ (after r) !! j = Some child
         ∧ ∀ bb2, let r2 := Sequence.tick_calls (after r) bb2 in
             head (calls r2) = Some (CallTick j (tick child bb2).2)
             ∧ ∀ i, i ∈ ticked (calls r2) → j ≤ i)
  ∧ (∀ (s : Selector.t C) (bb : Blackboard) (j : nat),
       CallTick j Running ∈ calls (Selector.tick_calls s bb) →
       let r := Selector.tick_calls s bb in
       result r = Running
       ∧ Selector.currentIndex_ (after r) = j
       ∧ ∃ child, Selector.children_ (after r) !! j = Some child
           ∧ ∀ bb2, let r2 := Selector.tick_calls (after r) bb2 in
               head (calls r2) = Some (CallTick j (tick child bb2).2)
               ∧ ∀ i, i ∈ ticked (calls r2) → j ≤ i).
Proof.
  split.
  - intros s bb j. cbv zeta.
    destruct (Sequence.halted_ s) eqn:Hh.
    { unfold Sequence.tick_calls. rewrite Hh. cbn [calls].
      intros Hin. by apply elem_of_nil in Hin. }
    assert (Htc : Sequence.tick_calls s bb = Sequence.seq_loop s bb)
      by (unfold Sequence.tick_calls; by rewrite Hh).
    rewrite Htc. intros Hin.
    destruct (SequenceFacts.seq_loop_running s bb j Hin)
      as (Hr & Hidx & Hhalt & Hj).
    rewrite <-(SequenceFacts.seq_loop_length s bb) in Hj.
    destruct (lookup_lt_is_Some_2
                (Sequence.children_ (after (Sequence.seq_loop s bb))) j)
      as [child Hchild]; [lia|].
    repeat split; auto. exists child. split; [done|].
    intros bb2. unfold Sequence.tick_calls.
    rewrite Hhalt, Hh.
    rewrite <-Hidx in Hchild.
    destruct (SequenceFacts.seq_loop_head _ bb2 _ Hchild) as [rest Hrest].
    destruct (SequenceFacts.seq_loop_ticked
                (after (Sequence.seq_loop s bb)) bb2) as [k Hk].
    rewrite Hrest, Hidx in *. split; [done|].
    intros i. rewrite Hk, elem_of_seq. lia.
  - intros s bb j. cbv zeta. unfold Selector.tick_calls.
    intros Hin.
    destruct (SelectorFacts.sel_loop_running s bb j Hin) as (Hr & Hidx & Hj).
    destruct (lookup_lt_is_Some_2
                (Selector.children_ (after (Selector.sel_loop s bb))) j)
      as [child Hchild]; [lia|].
    repeat split; auto. exists child. split; [done|].
    intros bb2.
    rewrite <-Hidx in Hchild.
    destruct (SelectorFacts.sel_loop_head _ bb2 _ Hchild) as [rest Hrest].
    destruct (SelectorFacts.sel_loop_ticked
                (after (Selector.sel_loop s bb)) bb2) as [k Hk].
    rewrite Hrest, Hidx in *. split; [done|].
    intros i. rewrite Hk, elem_of_seq. lia.
Qed.

Lemma running_resumption_witness :
  let s := Sequence.mk [scripted [Success]; scripted [Running; Success];
                        scripted [Success]] 0 false in
  let f := Selector.mk [scripted [Failure]; scripted [Running; Success]] 0 in
  let bb := Blackboard_new (H := cpp_types) in
  (CallTick 1 Running ∈ calls (Sequence.tick_calls s bb)
   ∧ result (Sequence.tick_calls s bb) = Running
   ∧ Sequence.currentIndex_ (after (Sequence.tick_calls s bb)) = 1)
  ∧ (CallTick 1 Running ∈ calls (Selector.tick_calls f bb)
     ∧ result (Selector.tick_calls f bb) = Running
     ∧ Selector.currentIndex_ (after (Selector.tick_calls f bb)) = 1).
Proof.
  intros s f bb.
  assert (Hs : CallTick 1 Running ∈ calls (Sequence.tick_calls s bb))
    by by_evaluation.
  assert (Hf : CallTick 1 Running ∈ calls (Selector.tick_calls f bb))
    by by_evaluation.
  destruct (running_resumption (H := cpp_types)
              (C := @Action.t cpp_types (list Status))) as [Hseq Hsel].
  destruct (Hseq s bb 1 Hs) as (? & ? & _).
  destruct (Hsel f bb 1 Hf) as (? & ? & _).
  repeat split; assumption.
Defined.

(** C2 (first failure of a Sequence).  Take a Sequence that is not halted
    and starts at cursor 0, and let child [i] be the first of its children
    to return [Failure] when they are ticked in order, each on the blackboard
    the one before it left, none before it returning [Running].  Then the
    tick returns [Failure]; it ticks exactly the children 0..[i], once each
    and in order, then resets every child; it ends with the cursor at 0, and
    the children after [i] have only been reset. *)
Theorem sequence_first_failure `{TypeInfo} {C : Type} `{!Node C}
    (s : Sequence.t C) (bb : Blackboard) (i : nat) :
  Sequence.halted_ s = false →
  Sequence.currentIndex_ s = 0 →
  outcomes (Sequence.children_ s) bb !! i = Some Failure →
  (∀ k st, k < i → outcomes (Sequence.children_ s) bb !! k = Some st →
           st ≠ Failure ∧ st ≠ Running) →
  let r := Sequence.tick_calls s bb in
  result r = Failure
  ∧ first_to_return Failure (calls r) = Some i
  ∧ returned (calls r) = take (S i) (outcomes (Sequence.children_ s) bb)
  ∧ ticked (calls r) = seq 0 (S i)
  ∧ drop (S i) (calls r) = CallReset <$> seq 0 (length (Sequence.children_ s))
  ∧ Sequence.currentIndex_ (after r) = 0
  ∧ Sequence.halted_ (after r) = false
  ∧ ∃ cs, Sequence.children_ (after r) = reset <$> cs
          ∧ length cs = length (Sequence.children_ s)
          ∧ ∀ k, i < k → cs !! k = Sequence.children_ s !! k.
Proof.
  intros Hh H0 Hi Hbefore. cbv zeta. unfold Sequence.tick_calls. rewrite Hh.
  pose proof (SequenceFacts.seq_loop_log s bb) as Hlog. cbv zeta in Hlog.
  rewrite H0, drop_0 in Hlog.
  assert (Hstop : sequence_stop (outcomes (Sequence.children_ s) bb)
                  = Some (i, Failure)).
  { apply list_find_Some. split; [done|]. split; [by left|].
    intros k st Hk Hlt [->| ->]; by destruct (Hbefore k _ Hlt Hk). }
  rewrite Hstop in Hlog. destruct Hlog as [Hr Hcalls].
  rewrite decide_False in Hcalls by done.
  assert (Hlen : length (take (S i) (outcomes (Sequence.children_ s) bb))
                 = S i).
  { apply lookup_lt_Some in Hi. rewrite length_take. lia. }
  assert (Hfirst : first_to_return Failure (calls (Sequence.seq_loop s bb))
                   = Some i).
  { rewrite Hcalls. apply (first_to_return_tick_log Failure 0 _ i).
    - by rewrite lookup_take_lt by lia.
    - intros k st Hk. rewrite lookup_take_lt by lia. intros Hst.
      by destruct (Hbefore k st Hk Hst). }
  destruct (SequenceFacts.seq_loop_failure s bb i Hfirst)
    as (_ & _ & Htk & Hrs & Hci & Hhalt & Hcs).
  rewrite H0, Nat.sub_0_r in Htk, Hrs.
  split; [done|]. split; [done|]. split; [|auto 10].
  by rewrite Hcalls, returned_tick_log, returned_resets, app_nil_r.
Qed.

Lemma sequence_first_failure_witness :
  let s := Sequence.mk [scripted [Success]; scripted [Success];
                        scripted [Failure]] 0 false in
  let r := Sequence.tick_calls s empty_board in
  outcomes (Sequence.children_ s) empty_board = [Success; Success; Failure]
  ∧ result r = Failure
  ∧ ticked (calls r) = [0; 1; 2]
  ∧ Sequence.currentIndex_ (after r) = 0.
Proof.
  intros s r.
  assert (Hbefore : ∀ k st, k < 2 →
            outcomes (Sequence.children_ s) empty_board !! k = Some st →
            st ≠ Failure ∧ st ≠ Running).
  { intros [|[|k]] st Hk; [| |lia]; intros [= <-]; by split. }
  assert (Hi : outcomes (Sequence.children_ s) empty_board !! 2
               = Some Failure) by reflexivity.
  destruct (sequence_first_failure s Blackboard_new 2 eq_refl eq_refl Hi
              Hbefore)
    as (? & _ & _ & ? & _ & ? & _).
  split; [reflexivity|]. repeat split; assumption.
Defined.


(** C5 (halt and reset of a Sequence).  Once [halt()] has been called, a tick
    returns [Failure], calls no child and leaves the sequence as it was, so
    every later tick does the same, however many follow.  [reset()] clears
    [halted_] and sets the cursor to 0, and the tick after it is an ordinary
    traversal from the first child: the children are ticked in order from
    position 0 up to the first that returns [Failure] or [Running], which is
    then the result, and when there is none every child is ticked and the
    result is [Success]. *)
Theorem sequence_halt_until_reset `{TypeInfo} {C : Type} `{!Node C}
    (s : Sequence.t C) :
  let h := (Sequence.halt_calls s).1 in
  let s' := (Sequence.reset_calls h).1 in
  Sequence.halted_ h = true
  ∧ (∀ bb, Sequence.tick_calls h bb = mkTicked h bb Failure [])
  ∧ (∀ n bb, ticks Sequence.tick_calls n h bb
             = replicate n (mkTicked h bb Failure []))
  ∧ Sequence.halted_ s' = false
  ∧ Sequence.currentIndex_ s' = 0
  ∧ Sequence.children_ s' = reset <$> (halt <$> Sequence.children_ s)
  ∧ (∀ bb, head (calls (Sequence.tick_calls s' bb))
           = (λ child, CallTick 0 (tick child bb).2)
               <$> (Sequence.children_ s' !! 0))
  ∧ ∀ bb, let r := Sequence.tick_calls s' bb in
          let os := outcomes (Sequence.children_ s') bb in
          match sequence_stop os with
          | None =>
              result r = Success
              ∧ ticked (calls r) = seq 0 (length (Sequence.children_ s))
              ∧ returned (calls r) = os
          | Some (m, st) =>
              result r = st
              ∧ ticked (calls r) = seq 0 (S m)
              ∧ returned (calls r) = take (S m) os
          end.
Proof.
  cbv zeta.
  assert (Htick : ∀ bb, Sequence.tick_calls (Sequence.halt_calls s).1 bb
                        = mkTicked (Sequence.halt_calls s).1 bb Failure [])
    by reflexivity.
  split; [done|]. split; [done|]. split; [|split; [done|]].
  { intros n bb. induction n as [|n IH]; [done|].
    cbn [ticks replicate]. rewrite Htick. cbn [after board]. by rewrite IH. }
  split; [done|]. split; [done|].
  set (s' := (Sequence.reset_calls (Sequence.halt_calls s).1).1).
  assert (Hloop : ∀ bb, Sequence.tick_calls s' bb = Sequence.seq_loop s' bb)
    by reflexivity.
  split; intros bb; rewrite Hloop.
  - destruct (Sequence.children_ s' !! 0) as [child|] eqn:Hc.
    + destruct (SequenceFacts.seq_loop_head s' bb child Hc) as [rest ->].
      reflexivity.
    + rewrite SequenceFacts.seq_loop_eq.
      change (Sequence.currentIndex_ s') with 0. rewrite Hc.
      cbn [calls Sequence.reset_calls snd].
      apply lookup_ge_None, Nat.le_0_r in Hc. by rewrite Hc.
  - pose proof (SequenceFacts.seq_loop_log s' bb) as Hlog. cbv zeta in Hlog.
    change (Sequence.currentIndex_ s') with 0 in Hlog. rewrite drop_0 in Hlog.
    assert (Hlen : length (outcomes (Sequence.children_ s') bb)
                   = length (Sequence.children_ s)).
    { change (Sequence.children_ s')
        with (reset <$> (halt <$> Sequence.children_ s)).
      rewrite <-(length_fmap halt (Sequence.children_ s)),
        <-(length_fmap reset (halt <$> Sequence.children_ s)).
      generalize (reset <$> (halt <$> Sequence.children_ s)). clear.
      intros cs. revert bb. induction cs as [|c cs IH]; intros bb; [done|].
      cbn. by rewrite IH. }
    destruct (sequence_stop (outcomes (Sequence.children_ s') bb))
      as [[m st]|] eqn:Hstop; destruct Hlog as [Hr Hcalls];
      rewrite Hcalls, ticked_tick_log, returned_tick_log.
    + apply list_find_Some in Hstop as (Hm & _ & _).
      apply lookup_lt_Some in Hm.
      rewrite length_take, Nat.min_l by lia.
      destruct (decide (st = Running));
        by rewrite ?ticked_resets, ?returned_resets, !app_nil_r.
    + by rewrite Hlen, ticked_resets, returned_resets, !app_nil_r.
Qed.

Lemma sequence_halt_until_reset_witness :
  let s := Sequence.mk [scripted [Success; Success];
                        scripted [Running; Success]] 0 false in
  let running := after (Sequence.tick_calls (H := cpp_types) s empty_board) in
  let h := (Sequence.halt_calls (H := cpp_types) running).1 in
  let s' := (Sequence.reset_calls (H := cpp_types) h).1 in
  Sequence.currentIndex_ running = 1
  ∧ result <$> ticks Sequence.tick_calls 2 h empty_board = [Failure; Failure]
  ∧ calls <$> ticks Sequence.tick_calls 2 h empty_board = [[]; []]
  ∧ result (Sequence.tick_calls s' empty_board) = Success
  ∧ ticked (calls (Sequence.tick_calls s' empty_board)) = [0; 1].
Proof.
  intros s running h s'.
  destruct (sequence_halt_until_reset (H := cpp_types) running)
    as (_ & _ & Hhalted & _ & _ & _ & _ & Hreset).
  specialize (Hreset empty_board). destruct Hreset as (Hr & Htk & _).
  split; [reflexivity|].
  split; [exact (f_equal (fmap result) (Hhalted 2 empty_board))|].
  split; [exact (f_equal (fmap calls) (Hhalted 2 empty_board))|].
  split; [exact Hr|exact Htk].
Defined.

(** C10 (empty Sequence).  A tick of a Sequence that is not halted and has no
    children returns [Success]: no child is called, the blackboard is handed
    back untouched, and the sequence is left reset. *)
Theorem empty_sequence_succeeds `{TypeInfo} {C : Type} `{!Node C}
    (s : Sequence.t C) (bb : Blackboard) :
  Sequence.halted_ s = false →
  Sequence.children_ s = [] →
  Sequence.tick_calls s bb = mkTicked (Sequence.mk [] 0 false) bb Success [].
Proof.
  intros Hh Hcs. unfold Sequence.tick_calls. rewrite Hh.
  rewrite SequenceFacts.seq_loop_eq, Hcs, lookup_nil.
  unfold Sequence.reset_calls. by rewrite Hcs.
Qed.

Lemma empty_sequence_succeeds_witness :
  result (Sequence.tick_calls
            (Sequence.new (C := @Action.t cpp_types unit))
            empty_board) = Success.
Proof.
  rewrite (empty_sequence_succeeds Sequence.new empty_board eq_refl eq_refl).
  reflexivity.
Defined.

(** ** Decorator *)

(** C9 (a Decorator always ticks its child).  Whatever the transform function
    and its captured state, a tick of a Decorator that is not halted calls
    its child's tick exactly once, hands the status the child returned to the
    transform, and returns what the transform returns. *)
Theorem decorator_ticks_child_once `{TypeInfo} {F C : Type} `{!Node C}
    (d : Decorator.t F C) (bb : Blackboard) :
  Decorator.halted_ d = false →
  let r := Decorator.tick_calls d bb in
  let childStatus := (tick (Decorator.child_ d) bb).2 in
  calls r = [CallTick 0 childStatus]
  ∧ result r = (call (Decorator.func_ d) childStatus).2
  ∧ Decorator.func_ (after r) = (call (Decorator.func_ d) childStatus).1
  ∧ Decorator.child_ (after r) = (tick (Decorator.child_ d) bb).1.1
  ∧ board r = (tick (Decorator.child_ d) bb).1.2
  ∧ Decorator.halted_ (after r) = false.
Proof.
  intros Hh. cbv zeta. unfold Decorator.tick_calls. rewrite Hh.
  destruct (tick (Decorator.child_ d) bb) as [[child' bb'] st].
  cbn [fst snd].
  destruct (call (Decorator.func_ d) st) as [func' r]. by cbn.
Qed.

Lemma decorator_ticks_child_once_witness :
  let d := Decorator.new decorators.Failer (counting Success) in
  let r := Decorator.tick_calls d empty_board in
  calls r = [CallTick 0 Success]
  ∧ result r = Failure
  ∧ get (H := cpp_types) t_int "count" (board r) = Returns (Some 1%Z).
Proof.
  intros d r.
  destruct (decorator_ticks_child_once (H := cpp_types) d Blackboard_new
              eq_refl) as (Hc & Hr & _).
  split; [exact Hc|]. split; [exact Hr|]. reflexivity.
Defined.

Lemma repeat_tick `{TypeInfo} {C : Type} `{!Node C}
    (maxTimes attempts : Z) (child : C) (bb : Blackboard) :
  Decorator.tick_calls
    (Decorator.mk (mkFunc (decorators.Repeat_code maxTimes) attempts)
                  child false) bb
  = let '(child', bb', st) := tick child bb in
    let '(attempts', r) := decorators.Repeat_code maxTimes attempts st in
    mkTicked
      (Decorator.mk (mkFunc (decorators.Repeat_code maxTimes) attempts')
                    child' false)
      bb' r [CallTick 0 st].
Proof.
  unfold Decorator.tick_calls, call. cbn.
  destruct (tick child bb) as [[child' bb'] st].
  by destruct (decorators.Repeat_code maxTimes attempts st).
Qed.

Lemma repeat_ticks `{TypeInfo} {C : Type} `{!Node C} (I : C → Prop) :
  (∀ c bb, I c → (tick c bb).2 = Failure ∧ I (tick c bb).1.1) →
  ∀ n maxTimes attempts child bb,
    I child →
    (λ r, (result r, env (Decorator.func_ (after r))))
      <$> ticks Decorator.tick_calls n
            (Decorator.mk (mkFunc (decorators.Repeat_code maxTimes) attempts)
                          child false) bb
    = repeat_failures maxTimes attempts n.
Proof.
  intros Hstep n. induction n as [|n IH]; intros m a child bb Hc; [done|].
  destruct (Hstep child bb Hc) as [Hf Hc'].
  cbn [ticks repeat_failures]. rewrite repeat_tick.
  destruct (tick child bb) as [[child' bb'] st]. cbn in Hf, Hc'. subst st.
  destruct (decorators.Repeat_code m a Failure) as [a' st].
  rewrite fmap_cons. cbn [after board result Decorator.func_ env].
  f_equal. by apply IH.
Qed.

(** C6 (Repeat).  Over a child that always returns [Failure], a Decorator
    made with [Repeat(3)] returns [Running], [Running], [Failure] on its
    first three ticks, leaving its counter at 1, 2 and then 0, and the next
    three ticks repeat this; with [maxTimes <= 0], whatever the counter, a
    tick on which the child returns [Failure] returns [Running]. *)
Theorem repeat_three_then_gives_up `{TypeInfo} {C : Type} `{!Node C}
    (child : C) (bb : Blackboard) :
  always_returns Failure child →
  (let rs := ticks Decorator.tick_calls 6
               (Decorator.new (decorators.Repeat 3) child) bb in
   result <$> rs = [Running; Running; Failure; Running; Running; Failure]
   ∧ (λ r, env (Decorator.func_ (after r))) <$> rs = [1; 2; 0; 1; 2; 0]%Z)
  ∧ (∀ (maxTimes attempts : Z) (c : C) (b : Blackboard),
       (maxTimes ≤ 0)%Z →
       (tick c b).2 = Failure →
       result (Decorator.tick_calls
                 (Decorator.mk
                    (mkFunc (decorators.Repeat_code maxTimes) attempts)
                    c false) b) = Running).
Proof.
  intros (I & HI & Hstep). split.
  - pose proof (repeat_ticks I Hstep 6 3%Z 0%Z child bb HI) as Hrs.
    cbv zeta. unfold Decorator.new, decorators.Repeat. split.
    + apply (f_equal (fmap fst)) in Hrs.
      rewrite <-list_fmap_compose in Hrs. exact Hrs.
    + apply (f_equal (fmap snd)) in Hrs.
      rewrite <-list_fmap_compose in Hrs. exact Hrs.
  - intros m a c b Hm Hf. rewrite repeat_tick.
    destruct (tick c b) as [[c' b'] st]. cbn in Hf. subst st.
    unfold decorators.Repeat_code.
    destruct (decide (Failure = Running)); [done|].
    destruct (decide (Failure = Success)); [done|].
    destruct (decide (Failure = Failure)); [|done].
    destruct (decide (0 < m ∧ m ≤ int_wrap (a + 1))%Z) as [[? _]|]; [lia|done].
Qed.

Lemma repeat_three_then_gives_up_witness :
  let rs := ticks Decorator.tick_calls 6
              (Decorator.new (decorators.Repeat 3) (counting Failure))
              empty_board in
  result <$> rs = [Running; Running; Failure; Running; Running; Failure]
  ∧ result (Decorator.tick_calls
              (Decorator.mk (mkFunc (decorators.Repeat_code (-1)) 5%Z)
                            (counting Failure) false)
              empty_board) = Running.
Proof.
  assert (Hc : always_returns (H := cpp_types) Failure (counting Failure)).
  { exists (λ c, c = counting Failure). split; [done|].
    by intros c bb ->. }
  destruct (repeat_three_then_gives_up (H := cpp_types)
              (counting Failure) empty_board Hc) as [[Hsix _] Hunbounded].
  split; [exact Hsix|].
  apply Hunbounded; [lia|reflexivity].
Defined.

(** C3, as stated, fails: a tick inside the cooldown window does not return
    without ticking the child.  Over a child that returns [Success] and then
    [Running], the second tick of a [Cooldown(0.5f)] decorator, one
    millisecond after the first, returns [Failure], but only after it has
    ticked the child, which has moved on in its script. *)
Lemma cooldown_gate_counterexample :
  let d := Decorator.new (decorators.Cooldown half_second millisecond_clock)
                         (scripted [Success; Running]) in
  ∃ r1 r2,
    ticks Decorator.tick_calls 2 d empty_board = [r1; r2]
    ∧ result r1 = Success
    ∧ decorators.lastSuccess (env (Decorator.func_ (after r1))) = 1000000000%Z
    ∧ float_lt (elapsed_seconds 1000000000%Z 1001000000%Z) half_second = true
    ∧ result r2 = Failure
    ∧ calls r2 = [CallTick 0 Running]
    ∧ Action.captured (Decorator.child_ (after r1)) = [Running]
    ∧ Action.captured (Decorator.child_ (after r2)) = [].
Proof.
  eexists _, _. split; [reflexivity|].
  repeat split; reflexivity.
Qed.

(** C3, amended.  A Cooldown decorator that is not halted ticks its child
    exactly once on every tick.  When the child's status is not [Success], a
    success has been recorded, and the clock reading is less than [seconds]
    after it, the tick returns [Failure] and keeps the recorded time.  The
    first tick, on which the child returns [Success], returns [Success] and
    records the clock reading. *)
Theorem cooldown_gate `{TypeInfo} {C : Type} `{!Node C}
    (seconds : float) (e : decorators.CooldownEnv) (child : C)
    (bb : Blackboard) :
  let d := Decorator.mk (mkFunc (decorators.Cooldown_code seconds) e)
                        child false in
  let r := Decorator.tick_calls d bb in
  let now := readings (decorators.clock e) (taken (decorators.clock e)) in
  let childStatus := (tick child bb).2 in
  calls r = [CallTick 0 childStatus]
  ∧ (childStatus ≠ Success →
     decorators.lastSuccess e ≠ epoch →
     float_lt (elapsed_seconds (decorators.lastSuccess e) now) seconds = true →
     result r = Failure
     ∧ decorators.lastSuccess (env (Decorator.func_ (after r)))
       = decorators.lastSuccess e)
  ∧ (childStatus = Success →
     decorators.lastSuccess e = epoch →
     result r = Success
     ∧ decorators.lastSuccess (env (Decorator.func_ (after r))) = now).
Proof.
  cbv zeta. unfold Decorator.tick_calls, call.
  cbn [Decorator.halted_ Decorator.child_ Decorator.func_ code env].
  destruct (tick child bb) as [[child' bb'] st]. cbn [fst snd].
  unfold decorators.Cooldown_code, steady_clock_now.
  destruct (decide (st = Success)) as [->|Hst].
  - cbn. repeat split; done.
  - destruct (decide (decorators.lastSuccess e ≠ epoch)) as [Hl|Hl].
    + destruct (float_lt _ seconds) eqn:Hlt; cbn; repeat split; done.
    + cbn. repeat split; done.
Qed.

Lemma cooldown_gate_witness :
  let e := decorators.mkCooldown 1000000000%Z
             (mkClock (λ _, 1100000000%Z) 0) in
  let d := Decorator.mk (mkFunc (decorators.Cooldown_code half_second) e)
                        (counting Running) false in
  let r := Decorator.tick_calls d empty_board in
  (tick (counting Running) empty_board).2 = Running
  ∧ float_lt (elapsed_seconds 1000000000%Z 1100000000%Z) half_second = true
  ∧ calls r = [CallTick 0 Running]
  ∧ result r = Failure
  ∧ result (Decorator.tick_calls
              (Decorator.new (decorators.Cooldown half_second millisecond_clock)
                             (counting Success))
              empty_board) = Success.
Proof.
  intros e d r.
  assert (H1 : (tick (counting Running) empty_board).2
               ≠ Success) by discriminate.
  assert (H2 : float_lt (elapsed_seconds 1000000000%Z 1100000000%Z) half_second
               = true) by (vm_compute; reflexivity).
  assert (H3 : decorators.lastSuccess e ≠ epoch) by discriminate.
  destruct (cooldown_gate (H := cpp_types) half_second e (counting Running)
              Blackboard_new) as (Hcalls & Hgate & _).
  destruct (cooldown_gate (H := cpp_types) half_second
              (decorators.mkCooldown epoch millisecond_clock)
              (counting Success) Blackboard_new) as (_ & _ & Hfirst).
  split; [reflexivity|]. split; [exact H2|]. split; [exact Hcalls|].
  split; [exact (proj1 (Hgate H1 H3 H2))|].
  exact (proj1 (Hfirst eq_refl eq_refl)).
Defined.

(** ** Parallel *)




(** ** Blackboard *)

(** C7 (blackboard round trip).  After [set<T>(k, v)], [get<T>(k)] returns
    [v]; [get<U>(k)] for any other type [U], and [get] on a key that is not
    set, return an empty optional.  In each case [get] returns: no exception
    escapes it. *)
Theorem blackboard_round_trip `{TypeInfo}
    (b : Blackboard) (k : string) (T : type_id) (v : value_of T) :
  get T k (set T k v b) = Returns (Some v)
  ∧ (∀ U, U ≠ T → get U k (set T k v b) = Returns None)
  ∧ (∀ U, data_ b !! k = None → get U k b = Returns None).
Proof.
  unfold get, set, any_cast. cbn [data_]. rewrite lookup_insert_eq.
  cbn [any_type any_value]. repeat split.
  - destruct (decide (T = T)) as [e|]; [|done].
    by rewrite (proof_irrel e eq_refl).
  - intros U HU. by destruct (decide (T = U)) as [->|].
  - by intros U ->.
Qed.

Lemma blackboard_round_trip_witness :
  let b := set (H := cpp_types) t_int "test_int" 42%Z Blackboard_new in
  get (H := cpp_types) t_int "test_int" b = Returns (Some 42%Z)
  ∧ get (H := cpp_types) t_string "test_int" b = Returns None
  ∧ get (H := cpp_types) t_int "non_existent" Blackboard_new = Returns None.
Proof.
  destruct (blackboard_round_trip (H := cpp_types) Blackboard_new "test_int"
              t_int 42%Z) as (Hget & Hother & _).
  destruct (blackboard_round_trip (H := cpp_types) Blackboard_new
              "non_existent" t_int 0%Z) as (_ & _ & Hunset).
  split; [exact Hget|]. split.
  - apply (Hother t_string). discriminate.
  - apply (Hunset t_int). reflexivity.
Defined.

(** ** Builder *)

Module BuilderFacts.
Import Builder.
Section BuilderFacts.
Context `{TypeInfo} {AF DF : Type}.
Implicit Types (b : t AF DF) (p n : NodePtr) (o : object AF DF).

Lemma accepts_make_shared o b p :
  accepts_children (deref b p) → accepts_children (deref (make_shared o b).2 p).
Proof.
  destruct p as [a|]; cbn; [|done].
  destruct (store b !! a) eqn:Ha; [|done].
  by rewrite (lookup_app_l_Some _ _ _ _ Ha).
Qed.

Lemma accepts_assign q o b p :
  accepts_children (deref b q) → accepts_children (Some o) →
  accepts_children (deref b p) → accepts_children (deref (assign q o b) p).
Proof.
  destruct q as [a|]; cbn; [|done].
  destruct p as [a'|]; cbn; [|done].
  destruct (decide (a = a')) as [<-|Hne].
  - destruct (store b !! a) eqn:Ha; [|done].
    intros _ Ho _. apply lookup_lt_Some in Ha.
    by rewrite list_lookup_insert_eq.
  - by rewrite list_lookup_insert_ne.
Qed.

Lemma accepts_add n b p :
  accepts_children (deref b p) → accepts_children (deref (add n b) p).
Proof.
  unfold add. destruct (last (stack_ b)) as [parent|]; [|done].
  destruct (deref b parent) as [[]|] eqn:Hp; try done;
    intros; apply accepts_assign; try done; by rewrite Hp.
Qed.

Lemma accepts_wrap (ds : list (Func DF)) node b p :
  accepts_children (deref b p) →
  accepts_children (deref (wrap ds node b).2 p).
Proof.
  revert node b. induction ds as [|func ds IH]; intros node b Hp; [done|].
  cbn [wrap]. destruct (make_shared _ b) as [node' b'] eqn:Hm.
  apply IH. change b' with (node', b').2. rewrite <-Hm.
  by apply accepts_make_shared.
Qed.

Lemma stack_wrap (ds : list (Func DF)) node b :
  stack_ (wrap ds node b).2 = stack_ b.
Proof.
  revert node b. induction ds as [|func ds IH]; intros node b; [done|].
  cbn [wrap]. destruct (make_shared _ b) as [node' b'] eqn:Hm.
  rewrite IH. by injection Hm as _ <-.
Qed.

Lemma stack_add n b : stack_ (add n b) = stack_ b.
Proof.
  unfold add. destruct (last (stack_ b)) as [[a|]|]; try done.
  cbn. by destruct (store b !! a) as [[]|].
Qed.

(** Pushing a freshly made composite keeps the stack to composites. *)
Lemma stack_push_fresh o b :
  accepts_children (Some o) →
  Forall (λ p, accepts_children (deref b p)) (stack_ b) →
  let '(n, b') := make_shared o b in
  Forall (λ p, accepts_children (deref (push n (add n b')) p))
         (stack_ (push n (add n b'))).
Proof.
  intros Ho Hst. cbn [make_shared].
  set (b' := mk (store b ++ [o]) (root_ b) (stack_ b) (decorators_ b)).
  set (n := Some (length (store b))).
  cbn [push stack_]. rewrite stack_add. apply Forall_app. split.
  - eapply Forall_impl; [exact Hst|]. intros p Hp.
    change (accepts_children (deref (add n b') p)).
    apply accepts_add. by apply (accepts_make_shared o b p).
  - apply Forall_singleton.
    change (accepts_children (deref (add n b') n)).
    apply accepts_add. cbn. by rewrite lookup_app_r, Nat.sub_diag.
Qed.

(** Through the public member functions the stack only ever holds Sequence,
    Selector and Parallel nodes, so [add] always finds a parent it can
    attach to. *)
Lemma stack_holds_composites b :
  reachable b → Forall (λ p, accepts_children (deref b p)) (stack_ b).
Proof.
  induction 1 as [|b _ IH|b _ IH|s f b _ IH|func b _ IH|func b _ IH|b _ IH].
  - constructor.
  - by apply (stack_push_fresh (SequenceObj Sequence.new) b).
  - by apply (stack_push_fresh (SelectorObj Selector.new) b).
  - by apply (stack_push_fresh (ParallelObj (Parallel.new s f)) b).
  - exact IH.
  - unfold action.
    destruct (make_shared (ActionObj func) b) as [node b1] eqn:Hm1.
    destruct (wrap (reverse (decorators_ b1)) node b1) as [node' b2] eqn:Hm2.
    rewrite stack_add. cbn [stack_].
    assert (Hst : stack_ b2 = stack_ b).
    { change b2 with (node', b2).2. rewrite <-Hm2, stack_wrap.
      by injection Hm1 as _ <-. }
    rewrite Hst. eapply Forall_impl; [exact IH|]. intros p Hp.
    apply accepts_add.
    change (accepts_children (deref b2 p)).
    change b2 with (node', b2).2. rewrite <-Hm2. apply accepts_wrap.
    change b1 with (node, b1).2. rewrite <-Hm1.
    by apply accepts_make_shared.
  - unfold end_. case_decide; [|exact IH]. cbn [stack_].
    change (Forall (λ p, accepts_children (deref b p))
                   (removelast (stack_ b))).
    destruct (stack_ b) as [|p l] using rev_ind; [done|].
    rewrite removelast_last. by apply Forall_app in IH as [? _].
Qed.
End BuilderFacts.
End BuilderFacts.

Module BuilderMore.
Import Builder.
Section BuilderMore.
Context `{TypeInfo} {AF DF : Type}.
Implicit Types (b : t AF DF) (p n : NodePtr) (o : object AF DF).

Lemma length_store_assign q o b :
  length (store (assign q o b)) = length (store b).
Proof. destruct q; cbn; by rewrite ?length_insert. Qed.

Lemma length_store_add n b : length (store (add n b)) = length (store b).
Proof.
  unfold add. destruct (last (stack_ b)) as [parent|]; [|done].
  destruct (deref b parent) as [[]|]; by rewrite ?length_store_assign.
Qed.

Lemma root_add n b :
  root_ (add n b) = if decide (stack_ b = []) then n else root_ b.
Proof.
  unfold add. destruct (stack_ b) as [|p l] eqn:Hs using rev_ind.
  - by rewrite decide_True.
  - rewrite last_snoc. rewrite decide_False by (by destruct l).
    destruct p as [a|]; cbn; [|done].
    by destruct (store b !! a) as [[]|].
Qed.

(** [add] changes the store at most at the parent, and only when the parent
    accepts children. *)
Lemma store_add_other n b (j : nat) :
  ¬ accepts_children (store b !! j) ∨ last (stack_ b) ≠ Some (Some j) →
  store (add n b) !! j = store b !! j.
Proof.
  unfold add. destruct (last (stack_ b)) as [[a|]|] eqn:Hl; try done.
  cbn. destruct (decide (a = j)) as [->|Hne].
  - intros [Hno|Hne]; [|done].
    destruct (store b !! j) as [[]|] eqn:Hj; cbn in *; try done;
      by destruct Hno.
  - intros _. destruct (store b !! a) as [[]|] eqn:Ha; cbn; try done;
      by rewrite list_lookup_insert_ne.
Qed.

(** [add] with an open composite on top of the stack appends the node to
    that composite's children. *)
Lemma add_attaches n b parent :
  last (stack_ b) = Some parent →
  accepts_children (deref b parent) →
  children_of (deref (add n b) parent) = children_of (deref b parent) ++ [n].
Proof.
  intros Hl Hacc. unfold add. rewrite Hl.
  destruct parent as [a|]; [|done]. cbn in *.
  destruct (store b !! a) as [[]|] eqn:Ha; try done; cbn;
    apply lookup_lt_Some in Ha; by rewrite list_lookup_insert_eq.
Qed.

(** What the loop of [action] leaves: one Decorator per pending function,
    each on top of the node made just before it. *)
Lemma wrap_spec (ds : list (Func DF)) (a : nat) b :
  length (store b) = S a →
  (wrap ds (Some a) b).1 = Some (a + length ds)
  ∧ store (wrap ds (Some a) b).2
    = store b
      ++ imap (λ i d, DecoratorObj
                        (Decorator.new (C := NodePtr) d (Some (a + i)))) ds
  ∧ root_ (wrap ds (Some a) b).2 = root_ b
  ∧ stack_ (wrap ds (Some a) b).2 = stack_ b.
Proof.
  revert a b. induction ds as [|d ds IH]; intros a b Hlen.
  - cbn. by rewrite Nat.add_0_r, app_nil_r.
  - cbn [wrap make_shared]. rewrite Hlen.
    destruct (IH (S a)
                (mk (store b
                       ++ [DecoratorObj
                             (Decorator.new (C := NodePtr) d (Some a))])
                    (root_ b) (stack_ b) (decorators_ b)))
      as (Hn & Hst & Hr & Hs).
    { cbn. rewrite length_app. cbn. lia. }
    cbn [store root_ stack_] in Hst, Hr, Hs.
    split; [rewrite Hn; cbn; f_equal; lia|].
    split; [|by split].
    rewrite Hst, <-app_assoc. cbn. rewrite Nat.add_0_r. do 2 f_equal.
    apply imap_ext. intros i x _. cbn. do 3 f_equal. lia.
Qed.
End BuilderMore.
End BuilderMore.

Module BuilderSteps.
Import Builder.
Section BuilderSteps.
Context `{TypeInfo} {AF DF : Type}.
Implicit Types (b : t AF DF) (p n : NodePtr) (o : object AF DF).

(** [action], with its loop unrolled: the Action is made first, then one
    Decorator per pending function from the back of [decorators_] to its
    front, and the last node made is handed to [add]. *)
Lemma action_spec (func : Action.t AF) b :
  action func b
  = add (Some (length (store b) + length (decorators_ b)))
        (mk (store b
               ++ ActionObj func
                  :: imap (λ i d, DecoratorObj
                                    (Decorator.new (C := NodePtr) d
                                       (Some (length (store b) + i))))
                          (reverse (decorators_ b)))
            (root_ b) (stack_ b) []).
Proof.
  unfold action. cbn [make_shared decorators_].
  destruct (BuilderMore.wrap_spec (reverse (decorators_ b)) (length (store b))
              (mk (store b ++ [ActionObj func]) (root_ b) (stack_ b)
                  (decorators_ b)))
    as (Hn & Hst & Hr & Hs).
  { cbn. rewrite length_app. cbn. lia. }
  destruct (wrap _ _ _) as [node b2]. cbn [fst snd store root_ stack_] in *.
  subst node. rewrite Hst, Hr, Hs, length_reverse, <-app_assoc. done.
Qed.

(** A parent that accepts children is where it was after nodes have been
    appended to the store. *)
Lemma deref_app_accepts b b' parent (extra : list (object AF DF)) :
  store b' = store b ++ extra →
  accepts_children (deref b parent) →
  deref b' parent = deref b parent.
Proof.
  intros Hst. destruct parent as [a|]; cbn; [|done]. rewrite Hst.
  destruct (store b !! a) eqn:Ha; [|done].
  intros _. by apply lookup_app_l_Some.
Qed.

(** Attaching a node to a builder whose store has grown by [extra]. *)
Lemma attach_after_growth b b' parent n (extra : list (object AF DF)) :
  store b' = store b ++ extra →
  stack_ b' = stack_ b →
  root_ b' = root_ b →
  last (stack_ b) = Some parent →
  accepts_children (deref b parent) →
  children_of (deref (add n b') parent) = children_of (deref b parent) ++ [n]
  ∧ root_ (add n b') = root_ b.
Proof.
  intros Hst Hs Hr Hl Hacc.
  pose proof (deref_app_accepts b b' parent extra Hst Hacc) as Hd.
  split.
  - rewrite BuilderMore.add_attaches, Hd; rewrite ?Hs, ?Hd; done.
  - rewrite BuilderMore.root_add, Hs, Hr. rewrite decide_False; [done|].
    intros Hnil. by rewrite Hnil in Hl.
Qed.
End BuilderSteps.
End BuilderSteps.





(** ** The repository's tests, replayed *)

Example test_simple_sequence :
  result (Sequence.tick_calls
            (Sequence.mk [scripted [Success]; scripted [Success]] 0 false)
            empty_board)
  = Success.
Proof. reflexivity. Qed.

Example test_simple_selector :
  result (Selector.tick_calls
            (Selector.mk [scripted [Failure]; scripted [Success]] 0)
            empty_board)
  = Success.
Proof. reflexivity. Qed.

Example test_nested_sequence_in_selector :
  result (Selector.tick_calls
            (Selector.mk
               [inl (Sequence.mk [scripted [Failure]; scripted [Success]]
                                 0 false);
                inr (scripted [Success])] 0) empty_board)
  = Success.
Proof. reflexivity. Qed.

Example test_nested_selector_in_sequence :
  result (Sequence.tick_calls
            (Sequence.mk
               [inl (Selector.mk [scripted [Failure]; scripted [Success]] 0);
                inr (scripted [Success])] 0 false) empty_board)
  = Success.
Proof. reflexivity. Qed.

Example test_inverter :
  result (Decorator.tick_calls
            (Decorator.new decorators.Inverter (scripted [Failure]))
            empty_board)
  = Success.
Proof. reflexivity. Qed.

Example test_succeeder :
  result (Decorator.tick_calls
            (Decorator.new decorators.Succeeder (scripted [Failure]))
            empty_board)
  = Success.
Proof. reflexivity. Qed.

Example test_failer :
  result (Decorator.tick_calls
            (Decorator.new decorators.Failer (scripted [Success]))
            empty_board)
  = Failure.
Proof. reflexivity. Qed.

Example test_actions_modify_blackboard :
  let r := Sequence.tick_calls (Sequence.mk step_actions 0 false) empty_board in
  result r = Success
  ∧ get (H := cpp_types) t_int "final_step" (board r) = Returns (Some 2%Z).
Proof. split; reflexivity. Qed.

Example test_builder_sequence :
  Builder.build
    (Builder.end_
       (Builder.action (scripted [Success])
          (Builder.action (scripted [Success])
             (Builder.sequence (Builder.new (DF := unit))))))
  = Returns
      (Builder.mkBonsai
         [Builder.SequenceObj (Sequence.mk [Some 1; Some 2] 0 false);
          Builder.ActionObj (scripted [Success]);
          Builder.ActionObj (scripted [Success])]
         (Some 0) empty_board).
Proof. reflexivity. Qed.

(** The cooldown example of the README: a [Cooldown(0.5)] over an action
    that always returns [Success], ticked twice in a row, where the README
    announces the second tick as "immediate retry - should fail".  The
    transform tests [status == Success] before it looks at the time of the
    last success, so one millisecond after the first tick the second one
    returns [Success] as well. *)
Example readme_cooldown_immediate_retry :
  let d := Decorator.new (decorators.Cooldown half_second millisecond_clock)
                         (counting Success) in
  ∃ r1 r2,
    ticks Decorator.tick_calls 2 d empty_board = [r1; r2]
    ∧ result r1 = Success
    ∧ decorators.lastSuccess (env (Decorator.func_ (after r1))) = 1000000000%Z
    ∧ float_lt (elapsed_seconds 1000000000%Z 1001000000%Z) half_second = true
    ∧ result r2 = Success
    ∧ calls r2 = [CallTick 0 Success].
Proof.
  eexists _, _. split; [reflexivity|].
  repeat split; reflexivity.
Qed.

(** * Further properties of the code *)

(** ** Sequence, continued *)

Module SequenceResults.
Import Sequence.
Section SequenceResults.
Context `{TypeInfo} {C : Type} `{!Node C}.

(** How the loop can end: on a child still [Running], with the cursor on it
    and nothing reset; or with [Failure] or [Success], the cursor back at 0
    and every child reset once.  [Success] needs every child from the cursor
    on to have been ticked, none of them returning [Failure] or [Running]. *)
Lemma seq_loop_ends (s : t C) (bb : Blackboard) :
  let r := seq_loop s bb in
  match result r with
  | Running =>
      reset_targets (calls r) = []
      ∧ currentIndex_ (after r) < length (children_ s)
      ∧ halted_ (after r) = halted_ s
      ∧ last (returned (calls r)) = Some Running
  | Failure =>
      reset_targets (calls r) = seq 0 (length (children_ s))
      ∧ currentIndex_ (after r) = 0
      ∧ halted_ (after r) = false
      ∧ last (returned (calls r)) = Some Failure
  | Success =>
      reset_targets (calls r) = seq 0 (length (children_ s))
      ∧ currentIndex_ (after r) = 0
      ∧ halted_ (after r) = false
      ∧ ticked (calls r)
        = seq (currentIndex_ s) (length (children_ s) - currentIndex_ s)
      ∧ Forall (λ st, st ≠ Failure ∧ st ≠ Running) (returned (calls r))
  | Idle => False
  end.
Proof.
  revert s bb.
  apply (SequenceFacts.seq_loop_ind (λ s _ r,
    match result r with
    | Running =>
        reset_targets (calls r) = []
        ∧ currentIndex_ (after r) < length (children_ s)
        ∧ halted_ (after r) = halted_ s
        ∧ last (returned (calls r)) = Some Running
    | Failure =>
        reset_targets (calls r) = seq 0 (length (children_ s))
        ∧ currentIndex_ (after r) = 0
        ∧ halted_ (after r) = false
        ∧ last (returned (calls r)) = Some Failure
    | Success =>
        reset_targets (calls r) = seq 0 (length (children_ s))
        ∧ currentIndex_ (after r) = 0
        ∧ halted_ (after r) = false
        ∧ ticked (calls r)
          = seq (currentIndex_ s) (length (children_ s) - currentIndex_ s)
        ∧ Forall (λ st, st ≠ Failure ∧ st ≠ Running) (returned (calls r))
    | Idle => False
    end));
    intros s bb; cbn [calls logged reset_calls fst snd after result
                      with_child advance children_ currentIndex_ halted_].
  - intros Hc. apply lookup_ge_None in Hc.
    rewrite reset_targets_resets, ticked_resets, returned_resets.
    replace (length (children_ s) - currentIndex_ s) with 0 by lia.
    repeat split; auto.
  - intros child child' bb' Hc _. apply lookup_lt_Some in Hc.
    repeat split; auto.
  - intros child child' bb' _ _.
    rewrite reset_targets_tick, reset_targets_resets, returned_tick,
      returned_resets, length_insert. repeat split; auto.
  - intros child child' bb' st Hc _ Hrun Hfail IH.
    apply lookup_lt_Some in Hc.
    rewrite reset_targets_tick, returned_tick, ticked_tick.
    rewrite length_insert in IH.
    destruct (result (seq_loop _ bb')); [| | |done].
    + destruct IH as (Hrs & Hci & Hh & Htk & Hall).
      split; [done|]. split; [done|]. split; [done|]. split.
      * rewrite Htk.
        replace (length (children_ s) - currentIndex_ s)
          with (S (length (children_ s) - S (currentIndex_ s))) by lia.
        done.
      * by constructor.
    + destruct IH as (Hrs & Hci & Hh & Hlast).
      repeat split; auto.
      destruct (returned (calls (seq_loop _ bb'))); [done|].
      by rewrite last_cons_cons.
    + destruct IH as (Hrs & Hci & Hh & Hlast).
      repeat split; auto.
      destruct (returned (calls (seq_loop _ bb'))); [done|].
      by rewrite last_cons_cons.
Qed.
End SequenceResults.
End SequenceResults.

(** X1.  A Sequence that is not halted returns [Success] exactly when no
    child ticked in this tick returned [Failure] or [Running]; it has then
    ticked every child from the cursor to the end, once each and in order. *)
Theorem sequence_success_ticks_every_child `{TypeInfo} {C : Type} `{!Node C}
    (s : Sequence.t C) (bb : Blackboard) :
  Sequence.halted_ s = false →
  let r := Sequence.tick_calls s bb in
  (result r = Success
   ↔ Forall (λ st, st ≠ Failure ∧ st ≠ Running) (returned (calls r)))
  ∧ (result r = Success →
     ticked (calls r)
     = seq (Sequence.currentIndex_ s)
           (length (Sequence.children_ s) - Sequence.currentIndex_ s)).
Proof.
  intros Hh. cbv zeta. unfold Sequence.tick_calls. rewrite Hh.
  pose proof (SequenceResults.seq_loop_ends s bb) as Hends. cbv zeta in Hends.
  destruct (result (Sequence.seq_loop s bb)) eqn:Hr; [| | |done].
  - destruct Hends as (_ & _ & _ & Htk & Hall). done.
  - destruct Hends as (_ & _ & _ & Hlast).
    split; [|done]. split; [done|]. intros Hall.
    apply last_Some in Hlast as [l Hl]. rewrite Hl in Hall.
    apply Forall_app in Hall as [_ Hall].
    apply Forall_singleton in Hall as [? _]. done.
  - destruct Hends as (_ & _ & _ & Hlast).
    split; [|done]. split; [done|]. intros Hall.
    apply last_Some in Hlast as [l Hl]. rewrite Hl in Hall.
    apply Forall_app in Hall as [_ Hall].
    apply Forall_singleton in Hall as [_ ?]. done.
Qed.

Lemma sequence_success_ticks_every_child_witness :
  let s := Sequence.mk [scripted [Success]; scripted [Idle];
                        scripted [Success]] 1 false in
  result (Sequence.tick_calls s empty_board) = Success
  ∧ ticked (calls (Sequence.tick_calls s empty_board)) = [1; 2].
Proof.
  intros s.
  destruct (sequence_success_ticks_every_child s empty_board eq_refl)
    as [Hiff Htk].
  assert (Hr : result (Sequence.tick_calls s empty_board) = Success).
  { apply Hiff. repeat constructor; discriminate. }
  split; [exact Hr|exact (Htk Hr)].
Defined.

(** X2.  After a tick of a Sequence that is not halted, either the result is
    [Running], no child has been reset and the cursor is on a child, or the
    result is [Success] or [Failure], every child has been reset exactly once,
    in order, and the cursor is back at 0. *)
Theorem sequence_tick_leaves_cursor `{TypeInfo} {C : Type} `{!Node C}
    (s : Sequence.t C) (bb : Blackboard) :
  Sequence.halted_ s = false →
  let r := Sequence.tick_calls s bb in
  let n := length (Sequence.children_ s) in
  (result r = Running
   ∧ reset_targets (calls r) = []
   ∧ Sequence.currentIndex_ (after r) < n)
  ∨ ((result r = Success ∨ result r = Failure)
     ∧ reset_targets (calls r) = seq 0 n
     ∧ Sequence.currentIndex_ (after r) = 0
     ∧ Sequence.halted_ (after r) = false).
Proof.
  intros Hh. cbv zeta. unfold Sequence.tick_calls. rewrite Hh.
  pose proof (SequenceResults.seq_loop_ends s bb) as Hends. cbv zeta in Hends.
  destruct (result (Sequence.seq_loop s bb)); [| | |done].
  - destruct Hends as (? & ? & ? & _). right. auto.
  - destruct Hends as (? & ? & ? & _). right. auto.
  - destruct Hends as (? & ? & _). left. auto.
Qed.

Lemma sequence_tick_leaves_cursor_witness :
  let s := Sequence.mk [scripted [Success]; scripted [Running]] 0 false in
  let r := Sequence.tick_calls s empty_board in
  result r = Running ∧ Sequence.currentIndex_ (after r) < 2.
Proof.
  intros s r.
  destruct (sequence_tick_leaves_cursor s empty_board eq_refl)
    as [(Hr & _ & Hc)|([Hr|Hr] & _)].
  - split; [exact Hr|exact Hc].
  - discriminate Hr.
  - discriminate Hr.
Defined.

(** ** Selector, continued *)

Module SelectorResults.
Import Selector.
Section SelectorResults.
Context `{TypeInfo} {C : Type} `{!Node C}.

Lemma sel_loop_length (s : t C) (bb : Blackboard) :
  length (children_ (after (sel_loop s bb))) = length (children_ s).
Proof.
  revert s bb.
  apply (SelectorFacts.sel_loop_ind
           (λ s _ r, length (children_ (after r)) = length (children_ s)));
    intros; cbn in *; rewrite ?length_fmap, ?length_insert in *; congruence.
Qed.

(** A child returning [Success] ends the tick: the children from the cursor
    up to it were ticked once each, then the selector was reset. *)
Lemma sel_loop_success (s : t C) (bb : Blackboard) (i : nat) :
  first_to_return Success (calls (sel_loop s bb)) = Some i →
  result (sel_loop s bb) = Success
  ∧ currentIndex_ s ≤ i
  ∧ ticked (calls (sel_loop s bb))
    = seq (currentIndex_ s) (S i - currentIndex_ s)
  ∧ drop (S i - currentIndex_ s) (calls (sel_loop s bb))
    = CallReset <$> seq 0 (length (children_ s))
  ∧ currentIndex_ (after (sel_loop s bb)) = 0
  ∧ ∃ cs, children_ (after (sel_loop s bb)) = reset <$> cs
          ∧ length cs = length (children_ s)
          ∧ ∀ k, i < k → cs !! k = children_ s !! k.
Proof.
  revert s bb.
  apply (SelectorFacts.sel_loop_ind
    (λ s _ r, first_to_return Success (calls r) = Some i →
       result r = Success
       ∧ currentIndex_ s ≤ i
       ∧ ticked (calls r) = seq (currentIndex_ s) (S i - currentIndex_ s)
       ∧ drop (S i - currentIndex_ s) (calls r)
         = CallReset <$> seq 0 (length (children_ s))
       ∧ currentIndex_ (after r) = 0
       ∧ ∃ cs, children_ (after r) = reset <$> cs
               ∧ length cs = length (children_ s)
               ∧ ∀ k, i < k → cs !! k = children_ s !! k));
    intros s bb; cbn [calls logged reset_calls fst snd after result
                      with_child advance children_ currentIndex_].
  - intros _. by rewrite first_to_return_resets.
  - intros child child' bb' _ _. by rewrite first_to_return_tick.
  - intros child child' bb' _ _. rewrite first_to_return_tick.
    destruct (decide (Success = Success)); [|done].
    intros [= <-]. rewrite ticked_tick, ticked_resets, length_insert,
      Nat.sub_succ_l, Nat.sub_diag by lia.
    repeat split; auto.
    exists (<[currentIndex_ s := child']> (children_ s)).
    rewrite length_insert. repeat split; auto.
    intros k Hk. apply list_lookup_insert_ne. lia.
  - intros child child' bb' st _ _ _ Hst IH. rewrite first_to_return_tick.
    destruct (decide (st = Success)); [done|]. intros Hi.
    destruct (IH Hi) as (Hr & Hle & Htk & Hrs & Hci & cs & Hcs & Hlen & Hk).
    cbn in Hle, Htk, Hrs, Hlen, Hk. rewrite length_insert in Hrs, Hlen.
    rewrite ticked_tick, Htk.
    replace (S i - currentIndex_ s) with (S (S i - S (currentIndex_ s)))
      by lia.
    repeat split; auto; try lia.
    exists cs. repeat split; auto.
    intros k Hik. rewrite Hk by done. apply list_lookup_insert_ne. lia.
Qed.

(** How the loop can end; the mirror image of the Sequence's. *)
Lemma sel_loop_ends (s : t C) (bb : Blackboard) :
  let r := sel_loop s bb in
  match result r with
  | Running =>
      reset_targets (calls r) = []
      ∧ currentIndex_ (after r) < length (children_ s)
      ∧ last (returned (calls r)) = Some Running
  | Success =>
      reset_targets (calls r) = seq 0 (length (children_ s))
      ∧ currentIndex_ (after r) = 0
      ∧ last (returned (calls r)) = Some Success
  | Failure =>
      reset_targets (calls r) = seq 0 (length (children_ s))
      ∧ currentIndex_ (after r) = 0
      ∧ ticked (calls r)
        = seq (currentIndex_ s) (length (children_ s) - currentIndex_ s)
      ∧ Forall (λ st, st ≠ Success ∧ st ≠ Running) (returned (calls r))
  | Idle => False
  end.
Proof.
  revert s bb.
  apply (SelectorFacts.sel_loop_ind (λ s _ r,
    match result r with
    | Running =>
        reset_targets (calls r) = []
        ∧ currentIndex_ (after r) < length (children_ s)
        ∧ last (returned (calls r)) = Some Running
    | Success =>
        reset_targets (calls r) = seq 0 (length (children_ s))
        ∧ currentIndex_ (after r) = 0
        ∧ last (returned (calls r)) = Some Success
    | Failure =>
        reset_targets (calls r) = seq 0 (length (children_ s))
        ∧ currentIndex_ (after r) = 0
        ∧ ticked (calls r)
          = seq (currentIndex_ s) (length (children_ s) - currentIndex_ s)
        ∧ Forall (λ st, st ≠ Success ∧ st ≠ Running) (returned (calls r))
    | Idle => False
    end));
    intros s bb; cbn [calls logged reset_calls fst snd after result
                      with_child advance children_ currentIndex_].
  - intros Hc. apply lookup_ge_None in Hc.
    rewrite reset_targets_resets, ticked_resets, returned_resets.
    replace (length (children_ s) - currentIndex_ s) with 0 by lia.
    repeat split; auto.
  - intros child child' bb' Hc _. apply lookup_lt_Some in Hc.
    repeat split; auto.
  - intros child child' bb' _ _.
    rewrite reset_targets_tick, reset_targets_resets, returned_tick,
      returned_resets, length_insert. repeat split; auto.
  - intros child child' bb' st Hc _ Hrun Hsucc IH.
    apply lookup_lt_Some in Hc.
    rewrite reset_targets_tick, returned_tick, ticked_tick.
    rewrite length_insert in IH.
    destruct (result (sel_loop _ bb')); [| | |done].
    + destruct IH as (Hrs & Hci & Hlast).
      repeat split; auto.
      destruct (returned (calls (sel_loop _ bb'))); [done|].
      by rewrite last_cons_cons.
    + destruct IH as (Hrs & Hci & Htk & Hall).
      split; [done|]. split; [done|]. split.
      * rewrite Htk.
        replace (length (children_ s) - currentIndex_ s)
          with (S (length (children_ s) - S (currentIndex_ s))) by lia.
        done.
      * by constructor.
    + destruct IH as (Hrs & Hci & Hlast).
      repeat split; auto.
      destruct (returned (calls (sel_loop _ bb'))); [done|].
      by rewrite last_cons_cons.
Qed.

(** The whole tick in terms of what the children from the cursor on return:
    they are ticked in order up to the first that returns [Success] or
    [Running]; [Running] ends the tick there, [Success] and the end of the
    list are followed by the reset of every child. *)
Lemma sel_loop_log (s : t C) (bb : Blackboard) :
  let os := outcomes (drop (currentIndex_ s) (children_ s)) bb in
  let resets := CallReset <$> seq 0 (length (children_ s)) in
  match selector_stop os with
  | None =>
      result (sel_loop s bb) = Failure
      ∧ calls (sel_loop s bb) = tick_log (currentIndex_ s) os ++ resets
  | Some (m, st) =>
      result (sel_loop s bb) = st
      ∧ calls (sel_loop s bb)
        = tick_log (currentIndex_ s) (take (S m) os)
          ++ (if decide (st = Running) then [] else resets)
  end.
Proof.
  assert (Hdrop : ∀ (s : t C) child,
            children_ s !! currentIndex_ s = Some child →
            drop (currentIndex_ s) (children_ s)
            = child :: drop (S (currentIndex_ s)) (children_ s)).
  { intros s' child Hc. by rewrite (drop_S _ _ _ Hc). }
  revert s bb.
  apply (SelectorFacts.sel_loop_ind
    (λ s bb r,
       let os := outcomes (drop (currentIndex_ s) (children_ s)) bb in
       let resets := CallReset <$> seq 0 (length (children_ s)) in
       match selector_stop os with
       | None =>
           result r = Failure
           ∧ calls r = tick_log (currentIndex_ s) os ++ resets
       | Some (m, st) =>
           result r = st
           ∧ calls r = tick_log (currentIndex_ s) (take (S m) os)
                       ++ (if decide (st = Running) then [] else resets)
       end)); intros s bb; cbv zeta.
  - intros Hc. apply lookup_ge_None in Hc. by rewrite drop_ge.
  - intros child child' bb' Hc Ht. rewrite (Hdrop s child Hc).
    cbn [outcomes]. rewrite Ht. unfold selector_stop. cbn [list_find snd].
    rewrite decide_True by auto. done.
  - intros child child' bb' Hc Ht. rewrite (Hdrop s child Hc).
    cbn [outcomes]. rewrite Ht. unfold selector_stop. cbn [list_find snd].
    rewrite decide_True by auto. cbn. by rewrite length_insert.
  - intros child child' bb' st Hc Ht Hrun Hsucc.
    rewrite (Hdrop s child Hc).
    cbn [outcomes advance with_child children_ currentIndex_].
    rewrite Ht. cbn [fst snd].
    rewrite drop_insert_lt, length_insert by lia.
    unfold selector_stop. cbn [list_find].
    rewrite decide_False by (intros [?|?]; done).
    destruct (list_find _ (outcomes _ bb')) as [[m st']|];
      cbn [fmap option_fmap option_map prod_map fst snd id logged result calls
             take tick_log app];
      intros [-> ->]; done.
Qed.
End SelectorResults.
End SelectorResults.

(** X3.  Take a Selector that starts at cursor 0, and let child [i] be the
    first of its children to return [Success] when they are ticked in order,
    each on the blackboard the one before it left, none before it returning
    [Running].  Then the tick returns [Success]; it has ticked exactly the
    children 0..[i], once each and in order, then reset every child; the
    cursor is back at 0 and the children after [i] have only been reset. *)
Theorem selector_first_success `{TypeInfo} {C : Type} `{!Node C}
    (s : Selector.t C) (bb : Blackboard) (i : nat) :
  Selector.currentIndex_ s = 0 →
  outcomes (Selector.children_ s) bb !! i = Some Success →
  (∀ k st, k < i → outcomes (Selector.children_ s) bb !! k = Some st →
           st ≠ Success ∧ st ≠ Running) →
  let r := Selector.tick_calls s bb in
  result r = Success
  ∧ first_to_return Success (calls r) = Some i
  ∧ returned (calls r) = take (S i) (outcomes (Selector.children_ s) bb)
  ∧ ticked (calls r) = seq 0 (S i)
  ∧ drop (S i) (calls r) = CallReset <$> seq 0 (length (Selector.children_ s))
  ∧ Selector.currentIndex_ (after r) = 0
  ∧ ∃ cs, Selector.children_ (after r) = reset <$> cs
          ∧ length cs = length (Selector.children_ s)
          ∧ ∀ k, i < k → cs !! k = Selector.children_ s !! k.
Proof.
  intros H0 Hi Hbefore. cbv zeta. unfold Selector.tick_calls.
  pose proof (SelectorResults.sel_loop_log s bb) as Hlog. cbv zeta in Hlog.
  rewrite H0, drop_0 in Hlog.
  assert (Hstop : selector_stop (outcomes (Selector.children_ s) bb)
                  = Some (i, Success)).
  { apply list_find_Some. split; [done|]. split; [by left|].
    intros k st Hk Hlt [->| ->]; by destruct (Hbefore k _ Hlt Hk). }
  rewrite Hstop in Hlog. destruct Hlog as [Hr Hcalls].
  rewrite decide_False in Hcalls by done.
  assert (Hfirst : first_to_return Success (calls (Selector.sel_loop s bb))
                   = Some i).
  { rewrite Hcalls. apply (first_to_return_tick_log Success 0 _ i).
    - by rewrite lookup_take_lt by lia.
    - intros k st Hk. rewrite lookup_take_lt by lia. intros Hst.
      by destruct (Hbefore k st Hk Hst). }
  destruct (SelectorResults.sel_loop_success s bb i Hfirst)
    as (_ & _ & Htk & Hrs & Hci & Hcs).
  rewrite H0, Nat.sub_0_r in Htk, Hrs.
  split; [done|]. split; [done|]. split; [|auto 10].
  by rewrite Hcalls, returned_tick_log, returned_resets, app_nil_r.
Qed.

Lemma selector_first_success_witness :
  let s := Selector.mk [scripted [Failure]; scripted [Failure];
                        scripted [Success]] 0 in
  let r := Selector.tick_calls s empty_board in
  outcomes (Selector.children_ s) empty_board = [Failure; Failure; Success]
  ∧ result r = Success
  ∧ ticked (calls r) = [0; 1; 2].
Proof.
  intros s r.
  assert (Hbefore : ∀ k st, k < 2 →
            outcomes (Selector.children_ s) empty_board !! k = Some st →
            st ≠ Success ∧ st ≠ Running).
  { intros [|[|k]] st Hk; [| |lia]; intros [= <-]; by split. }
  assert (Hi : outcomes (Selector.children_ s) empty_board !! 2
               = Some Success) by reflexivity.
  destruct (selector_first_success s empty_board 2 eq_refl Hi Hbefore)
    as (Hr & _ & _ & Htk & _).
  split; [reflexivity|]. split; [exact Hr|exact Htk].
Defined.

(** X4.  A Selector returns [Failure] exactly when no child ticked in this
    tick returned [Success] or [Running] (a child returning [Idle] is passed
    over like one returning [Failure]); it has then ticked every child from
    the cursor to the end.  In particular a Selector without children
    returns [Failure]. *)
Theorem selector_failure_ticks_every_child `{TypeInfo} {C : Type} `{!Node C}
    (s : Selector.t C) (bb : Blackboard) :
  let r := Selector.tick_calls s bb in
  (result r = Failure
   ↔ Forall (λ st, st ≠ Success ∧ st ≠ Running) (returned (calls r)))
  ∧ (result r = Failure →
     ticked (calls r)
     = seq (Selector.currentIndex_ s)
           (length (Selector.children_ s) - Selector.currentIndex_ s))
  ∧ (Selector.children_ s = [] → result r = Failure).
Proof.
  cbv zeta. unfold Selector.tick_calls.
  pose proof (SelectorResults.sel_loop_ends s bb) as Hends. cbv zeta in Hends.
  split; [|split].
  - destruct (result (Selector.sel_loop s bb)) eqn:Hr; [| | |done].
    + destruct Hends as (_ & _ & Hlast).
      split; [done|]. intros Hall.
      apply last_Some in Hlast as [l Hl]. rewrite Hl in Hall.
      apply Forall_app in Hall as [_ Hall].
      apply Forall_singleton in Hall as [? _]. done.
    + destruct Hends as (_ & _ & _ & Hall). done.
    + destruct Hends as (_ & _ & Hlast).
      split; [done|]. intros Hall.
      apply last_Some in Hlast as [l Hl]. rewrite Hl in Hall.
      apply Forall_app in Hall as [_ Hall].
      apply Forall_singleton in Hall as [_ ?]. done.
  - intros Hr. rewrite Hr in Hends. by destruct Hends as (_ & _ & Htk & _).
  - intros Hcs. rewrite SelectorFacts.sel_loop_eq, Hcs, lookup_nil. done.
Qed.

Lemma selector_failure_ticks_every_child_witness :
  let s := Selector.mk [scripted [Failure]; scripted [Idle]] 0 in
  result (Selector.tick_calls s empty_board) = Failure
  ∧ ticked (calls (Selector.tick_calls s empty_board)) = [0; 1]
  ∧ result (Selector.tick_calls
              (Selector.new (C := @Action.t cpp_types unit)) empty_board)
    = Failure.
Proof.
  intros s.
  destruct (selector_failure_ticks_every_child s empty_board)
    as (Hiff & Htk & _).
  destruct (selector_failure_ticks_every_child
              (Selector.new (C := @Action.t cpp_types unit)) empty_board)
    as (_ & _ & Hempty).
  assert (Hr : result (Selector.tick_calls s empty_board) = Failure).
  { apply Hiff. repeat constructor; discriminate. }
  split; [exact Hr|]. split; [exact (Htk Hr)|exact (Hempty eq_refl)].
Defined.

(** ** Composites together *)

(** X5.  No tick of a Sequence, a Selector or a Parallel returns [Idle],
    whatever its children return. *)
Theorem composites_never_return_idle `{TypeInfo} {C : Type} `{!Node C} :
  (∀ (s : Sequence.t C) bb, result (Sequence.tick_calls s bb) ≠ Idle)
  ∧ (∀ (s : Selector.t C) bb, result (Selector.tick_calls s bb) ≠ Idle)
  ∧ (∀ (p : Parallel.t C) bb, result (Parallel.tick_calls p bb) ≠ Idle).
Proof.
  split; [|split].
  - intros s bb. unfold Sequence.tick_calls.
    destruct (Sequence.halted_ s); [done|].
    pose proof (SequenceResults.seq_loop_ends s bb) as Hends.
    cbv zeta in Hends. intros Hr. by rewrite Hr in Hends.
  - intros s bb. unfold Selector.tick_calls.
    pose proof (SelectorResults.sel_loop_ends s bb) as Hends.
    cbv zeta in Hends. intros Hr. by rewrite Hr in Hends.
  - intros p bb. unfold Parallel.tick_calls.
    destruct (Parallel.tick_children _ _ _ _ _) as [[[[cs bb'] su] fa] log].
    cbn [result]. by repeat case_match.
Qed.

Lemma tick_inverter `{TypeInfo} {C : Type} `{!Node C}
    (child : C) (bb : Blackboard) :
  tick (Decorator.new decorators.Inverter child) bb
  = (Decorator.new decorators.Inverter (tick child bb).1.1,
     (tick child bb).1.2,
     (call decorators.Inverter (tick child bb).2).2).
Proof.
  cbn. unfold Decorator.tick_calls. cbn.
  by destruct (tick child bb) as [[child' bb'] []].
Qed.

Lemma inverter_status (st : Status) :
  (call decorators.Inverter st).2
  = match st with
    | Success => Failure
    | Failure => Success
    | _ => st
    end.
Proof. by destruct st. Qed.

Lemma inverted_reset `{TypeInfo} {C : Type} `{!Node C} (s : Selector.t C) :
  Sequence.reset_calls (inverted_sequence s)
  = (inverted_sequence (Selector.reset_calls s).1, (Selector.reset_calls s).2).
Proof.
  unfold Sequence.reset_calls, inverted_sequence. cbn.
  by rewrite length_fmap, <-!list_fmap_compose.
Qed.

Lemma inverted_with_child `{TypeInfo} {C : Type} `{!Node C}
    (s : Selector.t C) (child : C) :
  Sequence.with_child (inverted_sequence s)
    (Decorator.new decorators.Inverter child)
  = inverted_sequence (Selector.with_child s child).
Proof.
  unfold Sequence.with_child, inverted_sequence. cbn.
  by rewrite list_fmap_insert.
Qed.

(** X6.  A Selector is the dual of a Sequence: ticking the Sequence over the
    same children, each wrapped in an Inverter, ticks the same children,
    leaves them, the cursor and the blackboard in the same state, and returns
    the inverse of what the Selector returns. *)
Theorem selector_dual_of_sequence `{TypeInfo} {C : Type} `{!Node C}
    (s : Selector.t C) (bb : Blackboard) :
  let r := Selector.tick_calls s bb in
  let r' := Sequence.tick_calls (inverted_sequence s) bb in
  result r' = (call decorators.Inverter (result r)).2
  ∧ after r' = inverted_sequence (after r)
  ∧ board r' = board r
  ∧ ticked (calls r') = ticked (calls r)
  ∧ reset_targets (calls r') = reset_targets (calls r).
Proof.
  cbv zeta. unfold Selector.tick_calls, Sequence.tick_calls.
  cbn [inverted_sequence Sequence.halted_].
  revert s bb.
  apply (SelectorFacts.sel_loop_ind (λ s bb r,
    let r' := Sequence.seq_loop (inverted_sequence s) bb in
    result r' = (call decorators.Inverter (result r)).2
    ∧ after r' = inverted_sequence (after r)
    ∧ board r' = board r
    ∧ ticked (calls r') = ticked (calls r)
    ∧ reset_targets (calls r') = reset_targets (calls r)));
    intros s bb; cbv zeta; rewrite SequenceFacts.seq_loop_eq;
    change (Sequence.children_ (inverted_sequence s)
              !! Sequence.currentIndex_ (inverted_sequence s))
      with ((Decorator.new decorators.Inverter <$> Selector.children_ s)
              !! Selector.currentIndex_ s);
    change (Sequence.currentIndex_ (inverted_sequence s))
      with (Selector.currentIndex_ s);
    rewrite list_lookup_fmap.
  - intros ->. cbn [fmap option_fmap option_map].
    rewrite inverted_reset. done.
  - intros child child' bb' -> Ht. cbn [fmap option_fmap option_map].
    rewrite tick_inverter, Ht. cbn [fst snd call code env decorators.Inverter].
    cbn [decide]. rewrite inverted_with_child. done.
  - intros child child' bb' -> Ht. cbn [fmap option_fmap option_map].
    rewrite tick_inverter, Ht. cbn [fst snd call code env decorators.Inverter].
    rewrite inverted_with_child, inverted_reset. done.
  - intros child child' bb' st -> Ht Hrun Hsucc IH.
    cbn [fmap option_fmap option_map].
    rewrite tick_inverter, Ht. cbn [fst snd].
    rewrite inverted_with_child, inverter_status.
    destruct IH as (Hr & Ha & Hb & Htk & Hrs).
    destruct st; try done;
      cbn -[Sequence.seq_loop Selector.sel_loop inverted_sequence call
            ticked reset_targets Sequence.advance Selector.advance];
      change (Sequence.advance
                (inverted_sequence (Selector.with_child s child')))
        with (inverted_sequence
                (Selector.advance (Selector.with_child s child')));
      rewrite !ticked_tick, !reset_targets_tick, Htk, Hrs; auto.
Qed.

(** ** Parallel, continued *)

(** X7.  A Parallel without children calls nothing, and its result is
    decided by the policies alone: [Success] under a RequireAll success
    policy (zero successes out of zero), otherwise [Failure] under a
    RequireAll failure policy, otherwise [Running] on every tick. *)
Theorem parallel_without_children `{TypeInfo} {C : Type} `{!Node C}
    (p : Parallel.t C) (bb : Blackboard) :
  Parallel.children_ p = [] →
  let r := Parallel.tick_calls p bb in
  calls r = []
  ∧ board r = bb
  ∧ after r = p
  ∧ result r = match Parallel.successPolicy_ p, Parallel.failurePolicy_ p with
               | Parallel.RequireAll, _ => Success
               | Parallel.RequireOne, Parallel.RequireAll => Failure
               | Parallel.RequireOne, Parallel.RequireOne => Running
               end.
Proof.
  destruct p as [cs sp fp]. cbn. intros ->. cbv zeta.
  unfold Parallel.tick_calls. cbn. by destruct sp, fp.
Qed.

Lemma parallel_without_children_witness :
  result (Parallel.tick_calls
            (Parallel.new (C := @Action.t cpp_types unit)
               Parallel.RequireOne Parallel.RequireOne)
            empty_board) = Running.
Proof.
  exact (proj2 (proj2 (proj2
    (parallel_without_children
       (Parallel.new (C := @Action.t cpp_types unit)
          Parallel.RequireOne Parallel.RequireOne)
       empty_board eq_refl)))).
Defined.

(** ** Decorator, continued *)

(** X8.  After [halt()], a Decorator's tick returns [Failure] and calls
    neither its child nor its transform, however many ticks follow, until
    [reset()].  [halt()] and [reset()] are passed on to the child and leave
    the transform's captured state as it was; after [reset()] a tick calls
    the child again. *)
Theorem decorator_halt_until_reset `{TypeInfo} {F C : Type} `{!Node C}
    (d : Decorator.t F C) :
  let h := (Decorator.halt_calls d).1 in
  let d' := (Decorator.reset_calls h).1 in
  (∀ n bb, ticks Decorator.tick_calls n h bb
           = replicate n (mkTicked h bb Failure []))
  ∧ Decorator.func_ h = Decorator.func_ d
  ∧ Decorator.child_ h = halt (Decorator.child_ d)
  ∧ Decorator.func_ d' = Decorator.func_ d
  ∧ Decorator.child_ d' = reset (halt (Decorator.child_ d))
  ∧ ∀ bb, calls (Decorator.tick_calls d' bb)
          = [CallTick 0 (tick (Decorator.child_ d') bb).2].
Proof.
  cbv zeta. repeat split; try done.
  - intros n bb. induction n as [|n IH]; [done|].
    cbn [ticks replicate].
    change (Decorator.tick_calls (Decorator.halt_calls d).1 bb)
      with (mkTicked (Decorator.halt_calls d).1 bb Failure []).
    cbn [after board]. by rewrite IH.
  - intros bb. unfold Decorator.tick_calls. cbn.
    destruct (tick _ bb) as [[child' bb'] st]. cbn.
    by destruct (call _ st).
Qed.

(** X9.  [reset()] does not restart a Repeat: the attempt counter lives in
    the transform, which [reset()] and [halt()] leave alone.  A Repeat
    decorator that was one failure short of giving up still gives up on the
    first failure after a [reset()]. *)
Theorem repeat_counter_survives_reset `{TypeInfo} {C : Type} `{!Node C}
    (maxTimes attempts : Z) (child : C) (halted : bool) (bb : Blackboard) :
  let d := Decorator.mk (mkFunc (decorators.Repeat_code maxTimes) attempts)
                        child halted in
  env (Decorator.func_ (Decorator.reset_calls d).1) = attempts
  ∧ env (Decorator.func_ (Decorator.halt_calls d).1) = attempts
  ∧ ((0 < maxTimes)%Z →
     (maxTimes ≤ int_wrap (attempts + 1))%Z →
     (tick (reset child) bb).2 = Failure →
     result (Decorator.tick_calls (Decorator.reset_calls d).1 bb) = Failure).
Proof.
  cbv zeta. repeat split.
  intros Hm Ha Hf. cbn [Decorator.reset_calls fst Decorator.func_
    Decorator.child_]. rewrite repeat_tick.
  destruct (tick (reset child) bb) as [[c' bb'] st]. cbn in Hf. subst st.
  unfold decorators.Repeat_code.
  destruct (decide (Failure = Running)); [done|].
  destruct (decide (Failure = Success)); [done|].
  destruct (decide (Failure = Failure)); [|done].
  by destruct (decide (0 < maxTimes ∧ maxTimes ≤ int_wrap (attempts + 1))%Z)
    as [|[]].
Qed.

Lemma repeat_counter_survives_reset_witness :
  let d := Decorator.mk (mkFunc (decorators.Repeat_code 3) 2%Z)
                        (counting Failure) false in
  result (Decorator.tick_calls
            (Decorator.reset_calls (H := cpp_types) d).1 empty_board)
  = Failure.
Proof.
  intros d.
  apply (proj2 (proj2 (repeat_counter_survives_reset (H := cpp_types)
                         3 2 (counting Failure) false empty_board)));
    [lia|vm_compute; discriminate|reflexivity].
Defined.

(** X10.  Inverting twice gives the child's own status, and inverting a
    Succeeder gives a Failer (and the other way round): a Decorator stacked on
    a Decorator returns what the composed transforms return. *)
Theorem inverter_compositions `{TypeInfo} {C : Type} `{!Node C}
    (child : C) (bb : Blackboard) :
  let decorated f g := Decorator.new f (Decorator.new g child) in
  result (Decorator.tick_calls
            (decorated decorators.Inverter decorators.Inverter) bb)
  = (tick child bb).2
  ∧ result (Decorator.tick_calls
              (decorated decorators.Inverter decorators.Succeeder) bb)
    = result (Decorator.tick_calls (Decorator.new decorators.Failer child) bb)
  ∧ result (Decorator.tick_calls
              (decorated decorators.Inverter decorators.Failer) bb)
    = result (Decorator.tick_calls
                (Decorator.new decorators.Succeeder child) bb).
Proof.
  cbv zeta. unfold Decorator.tick_calls. cbn.
  unfold Decorator.tick_calls. cbn.
  by destruct (tick child bb) as [[child' bb'] []].
Qed.

(** X11.  A Succeeder never returns [Failure] or [Idle] and a Failer never
    returns [Success] or [Idle]: each returns [Running] exactly when the
    child does, and its own terminal status otherwise, also when the child
    returns [Idle]. *)
Theorem succeeder_failer_range `{TypeInfo} {C : Type} `{!Node C}
    (child : C) (bb : Blackboard) :
  let st := (tick child bb).2 in
  let s := result (Decorator.tick_calls
                     (Decorator.new decorators.Succeeder child) bb) in
  let f := result (Decorator.tick_calls
                     (Decorator.new decorators.Failer child) bb) in
  (s = Running ↔ st = Running) ∧ (s ≠ Running → s = Success)
  ∧ (f = Running ↔ st = Running) ∧ (f ≠ Running → f = Failure).
Proof.
  cbv zeta. unfold Decorator.tick_calls. cbn.
  by destruct (tick child bb) as [[child' bb'] []].
Qed.

(** ** Repeat, continued *)

Lemma int_wrap_small (z : Z) :
  (- 2 ^ 31 ≤ z < 2 ^ 31)%Z → int_wrap z = z.
Proof. intros Hz. unfold int_wrap. rewrite Z.mod_small; lia. Qed.

(** One call of the lambda of [Repeat] on [Failure], the counter in range. *)
Lemma repeat_code_failure (maxTimes attempts : Z) :
  (0 ≤ attempts < maxTimes)%Z → (maxTimes < 2 ^ 31)%Z →
  decorators.Repeat_code maxTimes attempts Failure
  = if decide (attempts + 1 = maxTimes)%Z then (0%Z, Failure)
    else ((attempts + 1)%Z, Running).
Proof.
  intros Ha Hm. unfold decorators.Repeat_code.
  destruct (decide (Failure = Running)); [done|].
  destruct (decide (Failure = Success)); [done|].
  destruct (decide (Failure = Failure)); [|done].
  rewrite int_wrap_small by lia.
  repeat case_decide; try done; lia.
Qed.

Lemma repeat_failures_cycle (maxTimes attempts : Z) (k : nat) :
  (0 ≤ attempts)%Z → (attempts + Z.of_nat k = maxTimes - 1)%Z →
  (maxTimes < 2 ^ 31)%Z →
  (repeat_failures maxTimes attempts (S k)).*1 = replicate k Running ++ [Failure]
  ∧ last (repeat_failures maxTimes attempts (S k)).*2 = Some 0%Z.
Proof.
  revert attempts. induction k as [|k IH]; intros a Ha Hk Hm.
  - cbn [repeat_failures]. rewrite repeat_code_failure by lia.
    rewrite decide_True by lia. done.
  - change (repeat_failures maxTimes a (S (S k)))
      with (let '(a', st) := decorators.Repeat_code maxTimes a Failure in
            (st, a') :: repeat_failures maxTimes a' (S k)).
    rewrite repeat_code_failure by lia. rewrite decide_False by lia.
    destruct (IH (a + 1)%Z) as [Hst Hlast]; [lia..|].
    rewrite !fmap_cons, Hst. split; [done|].
    cbn [snd]. destruct ((repeat_failures maxTimes (a + 1) (S k)).*2) eqn:E;
      [done|]. by rewrite last_cons_cons.
Qed.

(** X12.  Over a child that always returns [Failure], a Decorator made with
    [Repeat(n)], for any [n] from 1 up to the largest [int], returns
    [Running] on its first [n - 1] ticks and [Failure] on tick [n], and its
    counter is then back at 0. *)
Theorem repeat_gives_up_after_max_times `{TypeInfo} {C : Type} `{!Node C}
    (n : nat) (child : C) (bb : Blackboard) :
  0 < n → (Z.of_nat n < 2 ^ 31)%Z →
  always_returns Failure child →
  let rs := ticks Decorator.tick_calls n
              (Decorator.new (decorators.Repeat (Z.of_nat n)) child) bb in
  result <$> rs = replicate (n - 1) Running ++ [Failure]
  ∧ (λ r, env (Decorator.func_ (after r))) <$> last rs = Some 0%Z.
Proof.
  intros Hn Hmax (I & HI & Hstep). cbv zeta.
  pose proof (repeat_ticks I Hstep n (Z.of_nat n) 0%Z child bb HI) as Hrs.
  unfold Decorator.new, decorators.Repeat.
  destruct n as [|k]; [lia|].
  destruct (repeat_failures_cycle (Z.of_nat (S k)) 0 k) as [Hst Hlast];
    [lia..|].
  rewrite <-Hrs in Hst, Hlast. rewrite <-list_fmap_compose in Hst, Hlast.
  replace (S k - 1) with k by lia. split; [exact Hst|].
  rewrite fmap_last in Hlast. exact Hlast.
Qed.

Lemma repeat_gives_up_after_max_times_witness :
  result <$> ticks Decorator.tick_calls 5
               (Decorator.new (decorators.Repeat 5) (counting Failure))
               empty_board
  = [Running; Running; Running; Running; Failure].
Proof.
  assert (Hc : always_returns (H := cpp_types) Failure (counting Failure)).
  { exists (λ c, c = counting Failure). split; [done|].
    by intros c bb ->. }
  exact (proj1 (repeat_gives_up_after_max_times (H := cpp_types) 5
                  (counting Failure) empty_board
                  ltac:(lia) ltac:(lia) Hc)).
Defined.

(** X13.  With [0 < maxTimes], the counter of a Repeat stays in
    [0 .. maxTimes - 1] across calls (so it never overflows), the transform
    returns [Failure] only on a call that is handed [Failure] and brings the
    counter to [maxTimes], returns [Success] exactly when handed [Success],
    and hands [Running] through without touching the counter. *)
Theorem repeat_counter_bounded (maxTimes attempts : Z) (status : Status) :
  (0 < maxTimes < 2 ^ 31)%Z →
  (0 ≤ attempts < maxTimes)%Z →
  let attempts' := (decorators.Repeat_code maxTimes attempts status).1 in
  let r := (decorators.Repeat_code maxTimes attempts status).2 in
  (0 ≤ attempts' < maxTimes)%Z
  ∧ (r = Failure →
     status = Failure ∧ (attempts + 1 = maxTimes)%Z ∧ attempts' = 0%Z)
  ∧ (r = Success ↔ status = Success)
  ∧ (status = Running → r = Running ∧ attempts' = attempts).
Proof.
  intros Hm Ha. cbv zeta. destruct status.
  - change (decorators.Repeat_code maxTimes attempts Success)
      with (0%Z, Success).
    cbn. repeat split; intros; try done; lia.
  - rewrite repeat_code_failure by lia. case_decide; cbn;
      repeat split; intros; try done; lia.
  - change (decorators.Repeat_code maxTimes attempts Running)
      with (attempts, Running).
    cbn. repeat split; intros; try done; lia.
  - change (decorators.Repeat_code maxTimes attempts Idle)
      with (attempts, Idle).
    cbn. repeat split; intros; try done; lia.
Qed.

Lemma repeat_counter_bounded_witness :
  (decorators.Repeat_code 3 2 Failure).1 = 0%Z.
Proof.
  destruct (repeat_counter_bounded 3 2 Failure ltac:(lia) ltac:(lia))
    as (_ & Hf & _).
  exact (proj2 (proj2 (Hf eq_refl))).
Defined.

(** ** Timeout *)

Lemma elapsed_seconds_same (t : time_point) :
  elapsed_seconds t t = float_zero.
Proof.
  unfold elapsed_seconds, milliseconds_between. by rewrite Z.sub_diag.
Qed.

(** One tick of a Decorator made with [Timeout], the child's tick given. *)
Lemma timeout_tick `{TypeInfo} {C : Type} `{!Node C}
    (seconds : float) (e : decorators.TimeoutEnv) (child : C)
    (bb : Blackboard) :
  Decorator.tick_calls
    (Decorator.mk (mkFunc (decorators.Timeout_code seconds) e) child false) bb
  = mkTicked
      (Decorator.mk
         (mkFunc (decorators.Timeout_code seconds)
                 (decorators.Timeout_code seconds e (tick child bb).2).1)
         (tick child bb).1.1 false)
      (tick child bb).1.2
      (decorators.Timeout_code seconds e (tick child bb).2).2
      [CallTick 0 (tick child bb).2].
Proof.
  unfold Decorator.tick_calls, call.
  cbn [Decorator.halted_ Decorator.child_ Decorator.func_ code env].
  destruct (tick child bb) as [[child' bb'] st]. cbn [fst snd].
  by destruct (decorators.Timeout_code seconds e st).
Qed.

(** X14.  A Timeout of zero or fewer seconds fails every tick: the child is
    still ticked, but whatever it returns, also [Success], the decorator
    returns [Failure]. *)
Theorem timeout_not_positive_always_fails `{TypeInfo} {C : Type} `{!Node C}
    (seconds : float) (clk : steady_clock) (child : C) (bb : Blackboard)
    (n : nat) :
  float_ge float_zero seconds = true →
  let rs := ticks Decorator.tick_calls n
              (Decorator.new (decorators.Timeout seconds clk) child) bb in
  result <$> rs = replicate n Failure
  ∧ Forall (λ r, length (ticked (calls r)) = 1) rs.
Proof.
  intros Hz. cbv zeta. unfold Decorator.new, decorators.Timeout.
  assert (He : decorators.startTime (decorators.mkTimeout epoch clk) = epoch)
    by done.
  revert He. generalize (decorators.mkTimeout epoch clk). revert child bb.
  induction n as [|n IH]; intros child bb e He; [by split|].
  cbn [ticks]. rewrite timeout_tick. cbn [after board].
  assert (Hcode : ∀ st, decorators.Timeout_code seconds e st
                        = (decorators.mkTimeout epoch
                             (steady_clock_now (decorators.timer_clock e)).2,
                           Failure)).
  { intros st. unfold decorators.Timeout_code. cbn [steady_clock_now fst snd].
    rewrite He, decide_True by done.
    by rewrite elapsed_seconds_same, Hz. }
  rewrite Hcode. cbn [fst snd].
  destruct (IH (tick child bb).1.1 (tick child bb).1.2
               (decorators.mkTimeout epoch
                  (steady_clock_now (decorators.timer_clock e)).2)
               eq_refl) as [Hr Hc].
  split.
  - rewrite fmap_cons. cbn [result]. by rewrite Hr.
  - constructor; [done|exact Hc].
Qed.

Lemma timeout_not_positive_always_fails_witness :
  result <$> ticks Decorator.tick_calls 3
               (Decorator.new (decorators.Timeout float_zero millisecond_clock)
                              (counting Success))
               empty_board
  = [Failure; Failure; Failure].
Proof.
  exact (proj1 (timeout_not_positive_always_fails (H := cpp_types)
                  float_zero millisecond_clock (counting Success)
                  empty_board 3 eq_refl)).
Defined.

(** X15.  With a timeout above zero (as [float]s compare), a Timeout over a
    child that never returns [Running] changes nothing: tick after tick the
    decorator returns what the child returns, because the timer is stopped
    again at the end of every tick. *)
Theorem timeout_transparent_without_running `{TypeInfo} {C : Type} `{!Node C}
    (seconds : float) (clk : steady_clock) (child : C) (bb : Blackboard)
    (n : nat) :
  float_ge float_zero seconds = false →
  never_returns Running child →
  result <$> ticks Decorator.tick_calls n
               (Decorator.new (decorators.Timeout seconds clk) child) bb
  = result <$> ticks tick_alone n child bb.
Proof.
  intros Hz (I & HI & Hstep). unfold Decorator.new, decorators.Timeout.
  assert (He : decorators.startTime (decorators.mkTimeout epoch clk) = epoch)
    by done.
  revert He HI. generalize (decorators.mkTimeout epoch clk).
  revert child bb.
  induction n as [|n IH]; intros child bb e He HI; [done|].
  destruct (Hstep child bb HI) as [Hrun HI'].
  cbn [ticks]. rewrite timeout_tick. cbn [after board tick_alone].
  assert (Hcode : decorators.Timeout_code seconds e (tick child bb).2
                  = (decorators.mkTimeout epoch
                       (steady_clock_now (decorators.timer_clock e)).2,
                     (tick child bb).2)).
  { unfold decorators.Timeout_code. cbn [steady_clock_now fst snd].
    rewrite He, decide_True by done.
    rewrite elapsed_seconds_same, Hz. by rewrite decide_True. }
  rewrite Hcode, !fmap_cons. cbn [fst snd result]. f_equal.
  by apply IH.
Qed.

Lemma timeout_transparent_without_running_witness :
  result <$> ticks Decorator.tick_calls 2
               (Decorator.new (decorators.Timeout half_second millisecond_clock)
                              (counting Success))
               empty_board
  = [Success; Success].
Proof.
  assert (Hc : never_returns (H := cpp_types) Running (counting Success)).
  { exists (λ c, c = counting Success). split; [done|].
    by intros c bb ->. }
  exact (timeout_transparent_without_running (H := cpp_types) half_second
           millisecond_clock (counting Success) empty_board 2 eq_refl Hc).
Defined.

(** The lambda of [Timeout] measures from [t0] when its timer was started at
    [t0], or is stopped and the reading it is about to take is [t0]. *)
Lemma timeout_code_anchored (seconds : float) (t0 : time_point)
    (e : decorators.TimeoutEnv) (st : Status) :
  t0 ≠ epoch →
  decorators.startTime e = t0
  ∨ (decorators.startTime e = epoch
     ∧ readings (decorators.timer_clock e) (taken (decorators.timer_clock e))
       = t0) →
  let now := readings (decorators.timer_clock e)
                      (taken (decorators.timer_clock e)) in
  let clk := mkClock (readings (decorators.timer_clock e))
                     (S (taken (decorators.timer_clock e))) in
  decorators.Timeout_code seconds e st
  = if float_ge (elapsed_seconds t0 now) seconds
    then (decorators.mkTimeout epoch clk, Failure)
    else if decide (st ≠ Running)
         then (decorators.mkTimeout epoch clk, st)
         else (decorators.mkTimeout t0 clk, st).
Proof.
  intros Ht0 Hanchor. cbv zeta. unfold decorators.Timeout_code.
  cbn [steady_clock_now].
  destruct Hanchor as [He|[He Hnow]].
  - by rewrite He, decide_False.
  - by rewrite He, decide_True, Hnow.
Qed.

Lemma timeout_run `{TypeInfo} {C : Type} `{!Node C}
    (seconds : float) (t0 : time_point) (I : C → Prop) :
  t0 ≠ epoch →
  (∀ c bb, I c → (tick c bb).2 = Running ∧ I (tick c bb).1.1) →
  ∀ (k : nat) (e : decorators.TimeoutEnv) (child : C) (bb : Blackboard),
    let at_ i := readings (decorators.timer_clock e)
                          (taken (decorators.timer_clock e) + i) in
    I child →
    decorators.startTime e = t0
    ∨ (decorators.startTime e = epoch ∧ at_ 0 = t0) →
    (∀ i, i < k → float_ge (elapsed_seconds t0 (at_ i)) seconds = false) →
    float_ge (elapsed_seconds t0 (at_ k)) seconds = true →
    let rs := ticks Decorator.tick_calls (S k)
                (Decorator.mk (mkFunc (decorators.Timeout_code seconds) e)
                              child false) bb in
    result <$> rs = replicate k Running ++ [Failure]
    ∧ (λ r, decorators.startTime (env (Decorator.func_ (after r))))
        <$> last rs = Some epoch.
Proof.
  intros Ht0 Hstep k. induction k as [|k IH];
    intros e child bb at_ HI Hanchor Hbefore Hat;
    destruct (Hstep child bb HI) as [Hrun HI'];
    subst at_; cbn beta in *; rewrite ?Nat.add_0_r in *.
  - cbn [ticks]. rewrite timeout_tick.
    rewrite (timeout_code_anchored seconds t0 e _ Ht0 Hanchor). cbv zeta.
    by rewrite Hat.
  - change (ticks Decorator.tick_calls (S (S k)) ?d bb)
      with (Decorator.tick_calls d bb
              :: ticks Decorator.tick_calls (S k)
                   (after (Decorator.tick_calls d bb))
                   (board (Decorator.tick_calls d bb))).
    rewrite timeout_tick.
    rewrite (timeout_code_anchored seconds t0 e _ Ht0 Hanchor). cbv zeta.
    specialize (Hbefore 0 ltac:(lia)) as H0. rewrite Nat.add_0_r in H0.
    rewrite H0, Hrun, decide_False by (intros ?; done).
    cbn [fst snd after board].
    destruct (IH (decorators.mkTimeout t0
                    (mkClock (readings (decorators.timer_clock e))
                             (S (taken (decorators.timer_clock e)))))
                 (tick child bb).1.1 (tick child bb).1.2 HI')
      as [Hr Hl].
    + by left.
    + intros i Hi. cbn. rewrite <-Nat.add_succ_r. apply Hbefore. lia.
    + cbn. by rewrite <-Nat.add_succ_r.
    + split.
      * rewrite fmap_cons. cbn [result replicate app]. by rewrite Hr.
      * destruct (ticks _ (S k) _ _) eqn:E; [done|].
        by rewrite last_cons_cons.
Qed.

(** X16.  A Timeout measures from the first tick of a run, not from each
    tick: over a child that keeps returning [Running], the decorator returns
    [Running] on every tick whose clock reading is less than [seconds] after
    the reading of the first tick, returns [Failure] on the first tick whose
    reading is not, and its timer is then stopped. *)
Theorem timeout_measures_from_first_tick `{TypeInfo} {C : Type} `{!Node C}
    (seconds : float) (clk : steady_clock) (child : C) (bb : Blackboard)
    (k : nat) :
  let at_ i := readings clk (taken clk + i) in
  always_returns Running child →
  at_ 0 ≠ epoch →
  (∀ i, i < k → float_ge (elapsed_seconds (at_ 0) (at_ i)) seconds = false) →
  float_ge (elapsed_seconds (at_ 0) (at_ k)) seconds = true →
  let rs := ticks Decorator.tick_calls (S k)
              (Decorator.new (decorators.Timeout seconds clk) child) bb in
  result <$> rs = replicate k Running ++ [Failure]
  ∧ (λ r, decorators.startTime (env (Decorator.func_ (after r))))
      <$> last rs = Some epoch.
Proof.
  intros at_ (I & HI & Hstep) Ht0 Hbefore Hat.
  apply (timeout_run seconds (at_ 0) I Ht0 Hstep k
           (decorators.mkTimeout epoch clk) child bb HI); auto.
Qed.

Lemma timeout_measures_from_first_tick_witness :
  result <$> ticks Decorator.tick_calls 3
               (Decorator.new
                  (decorators.Timeout (float_of_Z 1)
                     (mkClock (λ n, (1000000000 + 600000000 * Z.of_nat n)%Z) 0))
                  (counting Running))
               empty_board
  = [Running; Running; Failure].
Proof.
  assert (Hc : always_returns (H := cpp_types) Running (counting Running)).
  { exists (λ c, c = counting Running). split; [done|].
    by intros c bb ->. }
  refine (proj1 (timeout_measures_from_first_tick (H := cpp_types)
                   (float_of_Z 1)
                   (mkClock (λ n, (1000000000 + 600000000 * Z.of_nat n)%Z) 0)
                   (counting Running) empty_board 2 Hc _ _ _)).
  - discriminate.
  - intros [|[|i]] Hi; [reflexivity|reflexivity|lia].
  - reflexivity.
Defined.

(** ** Cooldown, continued *)

Lemma cooldown_tick `{TypeInfo} {C : Type} `{!Node C}
    (seconds : float) (e : decorators.CooldownEnv) (child : C)
    (bb : Blackboard) :
  Decorator.tick_calls
    (Decorator.mk (mkFunc (decorators.Cooldown_code seconds) e) child false) bb
  = mkTicked
      (Decorator.mk
         (mkFunc (decorators.Cooldown_code seconds)
                 (decorators.Cooldown_code seconds e (tick child bb).2).1)
         (tick child bb).1.1 false)
      (tick child bb).1.2
      (decorators.Cooldown_code seconds e (tick child bb).2).2
      [CallTick 0 (tick child bb).2].
Proof.
  unfold Decorator.tick_calls, call.
  cbn [Decorator.halted_ Decorator.child_ Decorator.func_ code env].
  destruct (tick child bb) as [[child' bb'] st]. cbn [fst snd].
  by destruct (decorators.Cooldown_code seconds e st).
Qed.

(** X17.  Until its child first returns [Success], a Cooldown changes
    nothing: over a child that never returns [Success] the decorator returns,
    tick after tick, what the child returns, whatever the clock reads. *)
Theorem cooldown_transparent_before_success `{TypeInfo} {C : Type} `{!Node C}
    (seconds : float) (clk : steady_clock) (child : C) (bb : Blackboard)
    (n : nat) :
  never_returns Success child →
  result <$> ticks Decorator.tick_calls n
               (Decorator.new (decorators.Cooldown seconds clk) child) bb
  = result <$> ticks tick_alone n child bb.
Proof.
  intros (I & HI & Hstep). unfold Decorator.new, decorators.Cooldown.
  assert (He : decorators.lastSuccess (decorators.mkCooldown epoch clk) = epoch)
    by done.
  revert He HI. generalize (decorators.mkCooldown epoch clk).
  revert child bb.
  induction n as [|n IH]; intros child bb e He HI; [done|].
  destruct (Hstep child bb HI) as [Hns HI'].
  cbn [ticks]. rewrite cooldown_tick. cbn [after board tick_alone].
  assert (Hcode : decorators.Cooldown_code seconds e (tick child bb).2
                  = (decorators.mkCooldown epoch
                       (steady_clock_now (decorators.clock e)).2,
                     (tick child bb).2)).
  { unfold decorators.Cooldown_code. cbn [steady_clock_now fst snd].
    rewrite decide_False by done. rewrite He.
    rewrite decide_False by (intros Hne; by apply Hne).
    by destruct e. }
  rewrite Hcode, !fmap_cons. cbn [fst snd result]. f_equal.
  by apply IH.
Qed.

Lemma cooldown_transparent_before_success_witness :
  result <$> ticks Decorator.tick_calls 2
               (Decorator.new (decorators.Cooldown half_second millisecond_clock)
                              (counting Failure))
               empty_board
  = [Failure; Failure].
Proof.
  assert (Hc : never_returns (H := cpp_types) Success (counting Failure)).
  { exists (λ c, c = counting Failure). split; [done|].
    by intros c bb ->. }
  exact (cooldown_transparent_before_success (H := cpp_types) half_second
           millisecond_clock (counting Failure) empty_board 2 Hc).
Defined.

(** ** Blackboard, continued *)

(** X18.  [set] on one key leaves every other key as it was: a later [get]
    on another key returns what it returned before, at any type; and two
    [set]s on different keys can be done in either order. *)
Theorem blackboard_set_other_key `{TypeInfo}
    (b : Blackboard) (k k' : string) (T U V : type_id)
    (v : value_of T) (w : value_of V) :
  k ≠ k' →
  get U k' (set T k v b) = get U k' b
  ∧ set T k v (set V k' w b) = set V k' w (set T k v b).
Proof.
  intros Hk. split.
  - unfold get, set. cbn [data_]. by rewrite lookup_insert_ne.
  - unfold set. cbn [data_]. f_equal. by apply insert_insert_ne.
Qed.

Lemma blackboard_set_other_key_witness :
  let b := set (H := cpp_types) t_int "a" 1%Z empty_board in
  get (H := cpp_types) t_int "a"
      (set (H := cpp_types) t_string "b" "x" b) = Returns (Some 1%Z).
Proof.
  intros b.
  rewrite (proj1 (blackboard_set_other_key (H := cpp_types) b "b" "a"
                    t_string t_int t_int "x" 0%Z ltac:(discriminate))).
  reflexivity.
Defined.

(** X19.  The last [set] on a key wins and replaces the stored type: setting
    a key twice leaves the blackboard as the second [set] alone would, so the
    first value can no longer be read at its own type if that differs. *)
Theorem blackboard_last_set_wins `{TypeInfo}
    (b : Blackboard) (k : string) (T U : type_id)
    (v : value_of T) (w : value_of U) :
  set T k v (set U k w b) = set T k v b
  ∧ get T k (set T k v (set U k w b)) = Returns (Some v)
  ∧ (U ≠ T → get U k (set T k v (set U k w b)) = Returns None).
Proof.
  assert (Hset : set T k v (set U k w b) = set T k v b).
  { unfold set. cbn [data_]. f_equal. apply insert_insert_eq. }
  rewrite Hset. unfold get, set, any_cast. cbn [data_].
  rewrite lookup_insert_eq. cbn [any_type any_value]. repeat split.
  - destruct (decide (T = T)) as [e|]; [|done].
    by rewrite (proof_irrel e eq_refl).
  - intros HU. by destruct (decide (T = U)) as [->|].
Qed.

Lemma blackboard_last_set_wins_witness :
  get (H := cpp_types) t_int "k"
      (set (H := cpp_types) t_string "k" "text"
         (set (H := cpp_types) t_int "k" 7%Z empty_board))
  = Returns None.
Proof.
  apply (proj2 (proj2 (blackboard_last_set_wins (H := cpp_types) empty_board
                         "k" t_string t_int "text" 7%Z))).
  discriminate.
Defined.

(** ** Builder, continued *)

(** X20.  On a builder obtained through the public member functions, with a
    composite open, every node-making call appends its node as the last
    child of the innermost open composite and leaves the root alone; for
    [action] the node attached is the outermost of the pending decorators
    (the Action itself if there are none). *)
Theorem builder_attaches_in_order `{TypeInfo} {AF DF : Type}
    (b : Builder.t AF DF) (parent : NodePtr) :
  Builder.reachable b →
  last (Builder.stack_ b) = Some parent →
  let len := length (Builder.store b) in
  let before := children_of (Builder.deref b parent) in
  (∀ func,
     children_of (Builder.deref (Builder.action func b) parent)
     = before ++ [Some (len + length (Builder.decorators_ b))]
     ∧ Builder.root_ (Builder.action func b) = Builder.root_ b)
  ∧ (children_of (Builder.deref (Builder.sequence b) parent)
     = before ++ [Some len]
     ∧ Builder.root_ (Builder.sequence b) = Builder.root_ b)
  ∧ (children_of (Builder.deref (Builder.selector b) parent)
     = before ++ [Some len]
     ∧ Builder.root_ (Builder.selector b) = Builder.root_ b)
  ∧ (∀ s f,
       children_of (Builder.deref (Builder.parallel s f b) parent)
       = before ++ [Some len]
       ∧ Builder.root_ (Builder.parallel s f b) = Builder.root_ b).
Proof.
  intros Hb Hl. cbv zeta.
  assert (Hacc : Builder.accepts_children (Builder.deref b parent)).
  { pose proof (BuilderFacts.stack_holds_composites b Hb) as Hst.
    rewrite Forall_forall in Hst. apply Hst.
    apply last_Some in Hl as [l ->]. set_solver. }
  split; [|split; [|split]].
  - intros func. rewrite BuilderSteps.action_spec.
    by eapply BuilderSteps.attach_after_growth.
  - by eapply (BuilderSteps.attach_after_growth b
                 (Builder.make_shared (Builder.SequenceObj Sequence.new) b).2).
  - by eapply (BuilderSteps.attach_after_growth b
                 (Builder.make_shared (Builder.SelectorObj Selector.new) b).2).
  - intros s f.
    by eapply (BuilderSteps.attach_after_growth b
                 (Builder.make_shared
                    (Builder.ParallelObj (Parallel.new s f)) b).2).
Qed.

Lemma builder_attaches_in_order_witness :
  let b := Builder.action (scripted [Success])
             (Builder.sequence (Builder.new (DF := unit))) in
  children_of
    (Builder.deref (Builder.action (scripted [Failure]) b) (Some 0))
  = [Some 1; Some 2].
Proof.
  intros b.
  assert (Hb : Builder.reachable b)
    by apply Builder.reach_action, Builder.reach_sequence, Builder.reach_new.
  exact (proj1 (proj1 (builder_attaches_in_order (H := cpp_types) b (Some 0)
                         Hb eq_refl) (scripted [Failure]))).
Defined.


(** X21.  [action] uses up the pending decorators and stores the Action
    first, at the next free address, then one Decorator per pending function
    taken from the back of [decorators_]: the function declared last wraps
    the Action itself, each earlier one wraps the Decorator made just before
    it, so the function declared first ends up outermost. *)
Theorem builder_decorators_wrap_next_action `{TypeInfo} {AF DF : Type}
    (b : Builder.t AF DF) (func : Action.t AF) :
  let len := length (Builder.store b) in
  let b' := Builder.action func b in
  Builder.decorators_ b' = []
  ∧ length (Builder.store b') = S (len + length (Builder.decorators_ b))
  ∧ Builder.deref b' (Some len) = Some (Builder.ActionObj func)
  ∧ ∀ i d, reverse (Builder.decorators_ b) !! i = Some d →
      Builder.deref b' (Some (S (len + i)))
      = Some (Builder.DecoratorObj
                (Decorator.new (C := NodePtr) d (Some (len + i)))).
Proof.
  cbv zeta. rewrite BuilderSteps.action_spec.
  set (fresh := Builder.ActionObj func :: imap _ _).
  set (b2 := Builder.mk _ _ _ _).
  assert (Hfresh : ∀ j o, fresh !! j = Some o →
            Builder.deref (Builder.add (Some (length (Builder.store b)
                                              + length (Builder.decorators_ b)))
                             b2)
              (Some (length (Builder.store b) + j)) = Some o
            ∧ ¬ Builder.accepts_children (Some o)).
  { intros j o Hj.
    assert (Hb2 : Builder.store b2 !! (length (Builder.store b) + j) = Some o).
    { subst b2. cbn [Builder.store]. by rewrite lookup_app_r, Nat.add_sub'
        by lia. }
    assert (Hno : ¬ Builder.accepts_children (Some o)).
    { destruct j as [|j]; cbn in Hj.
      - injection Hj as <-. by intros [].
      - apply list_lookup_imap_Some in Hj as (d & _ & ->). by intros []. }
    split; [|done]. cbn [Builder.deref option_bind mbind].
    change (Builder.store (Builder.add (Some (length (Builder.store b)
                                              + length (Builder.decorators_ b)))
                             b2) !! (length (Builder.store b) + j) = Some o).
    rewrite BuilderMore.store_add_other; [done|]. left. by rewrite Hb2. }
  split; [|split; [|split]].
  - unfold Builder.add. destruct (last _) as [[a|]|]; try done.
    cbn. by destruct (_ !! a) as [[]|].
  - rewrite BuilderMore.length_store_add. subst b2 fresh.
    cbn [Builder.store]. rewrite length_app. cbn [length].
    rewrite length_imap, length_reverse. lia.
  - destruct (Hfresh 0 (Builder.ActionObj func) eq_refl) as [Hd _].
    by rewrite Nat.add_0_r in Hd.
  - intros i d Hi. rewrite <-Nat.add_succ_r. apply Hfresh.
    subst fresh.
    refine (proj2 (list_lookup_imap_Some _ _ i _) _). by exists d.
Qed.

Lemma builder_decorators_wrap_next_action_witness :
  let b' := Builder.action (scripted [Success])
              (Builder.decorator decorators.Failer
                 (Builder.decorator decorators.Inverter Builder.new)) in
  Builder.deref b' (Some 1)
  = Some (Builder.DecoratorObj (Decorator.new decorators.Failer (Some 0)))
  ∧ Builder.deref b' (Some 2)
    = Some (Builder.DecoratorObj (Decorator.new decorators.Inverter (Some 1)))
  ∧ Builder.root_ b' = Some 2.
Proof.
  intros b'. split; [|split; [|reflexivity]].
  - exact (proj2 (proj2 (proj2
             (builder_decorators_wrap_next_action (H := cpp_types)
                (Builder.decorator decorators.Failer
                   (Builder.decorator decorators.Inverter Builder.new))
                (scripted [Success])))) 0 decorators.Failer eq_refl).
  - exact (proj2 (proj2 (proj2
             (builder_decorators_wrap_next_action (H := cpp_types)
                (Builder.decorator decorators.Failer
                   (Builder.decorator decorators.Inverter Builder.new))
                (scripted [Success])))) 1 decorators.Inverter eq_refl).
Defined.


Module BuilderInvariants.
Import Builder.
Section BuilderInvariants.
Context `{TypeInfo} {AF DF : Type}.
Implicit Types (b : t AF DF) (p n : NodePtr) (o : object AF DF).

Lemma points_below_mono (size size' : nat) p :
  size ≤ size' → points_below size p → points_below size' p.
Proof. destruct p; cbn; [lia|done]. Qed.

(** The pending decorators hold no pointer. *)
Lemma no_dangling_same b b' :
  store b' = store b → stack_ b' = stack_ b → root_ b' = root_ b →
  no_dangling_pointer b → no_dangling_pointer b'.
Proof. unfold no_dangling_pointer. by intros -> -> ->. Qed.

Lemma no_dangling_make_shared o b :
  Forall (points_below (S (length (store b)))) (pointers_of o) →
  no_dangling_pointer b →
  no_dangling_pointer (make_shared o b).2
  ∧ points_below (length (store (make_shared o b).2)) (make_shared o b).1.
Proof.
  intros Ho (Hst & Hs & Hr). unfold no_dangling_pointer.
  cbn [make_shared fst snd store stack_ root_].
  rewrite length_app, Nat.add_1_r.
  split; [split; [|split]|cbn; lia].
  - apply Forall_app. split; [|by apply Forall_singleton].
    eapply Forall_impl; [exact Hst|]. intros o' Ho'.
    eapply Forall_impl; [exact Ho'|]. intros p. apply points_below_mono. lia.
  - eapply Forall_impl; [exact Hs|]. intros p. apply points_below_mono. lia.
  - destruct Hr as [Hr|Hr]; [by left|right].
    revert Hr. apply points_below_mono. lia.
Qed.

Lemma no_dangling_assign (a : nat) o o' b :
  store b !! a = Some o →
  (Forall (points_below (length (store b))) (pointers_of o) →
   Forall (points_below (length (store b))) (pointers_of o')) →
  no_dangling_pointer b → no_dangling_pointer (assign (Some a) o' b).
Proof.
  intros Ha Ho' (Hst & Hs & Hr). unfold no_dangling_pointer.
  cbn [assign store stack_ root_]. rewrite length_insert.
  split; [|done]. apply Forall_insert; [done|]. apply Ho'.
  by apply (Forall_lookup_1 _ _ _ _ Hst Ha).
Qed.

Lemma no_dangling_add n b :
  points_below (length (store b)) n →
  no_dangling_pointer b → no_dangling_pointer (add n b).
Proof.
  intros Hn Hb. unfold add.
  destruct (last (stack_ b)) as [[a|]|] eqn:Hl; [| done |].
  - cbn [deref mbind option_bind].
    destruct (store b !! a) as [[s|s|q|f|d]|] eqn:Ha; cbn; try done;
      (eapply no_dangling_assign; [exact Ha| |done]); cbn; intros Hc;
      apply Forall_app; (split; [done|by apply Forall_singleton]).
  - destruct Hb as (Hst & Hs & Hr). split; [done|]. split; [done|]. by right.
Qed.

Lemma no_dangling_push n b :
  points_below (length (store b)) n →
  no_dangling_pointer b → no_dangling_pointer (push n b).
Proof.
  intros Hn (Hst & Hs & Hr). split; [done|]. split; [|done].
  apply Forall_app. split; [done|by apply Forall_singleton].
Qed.

Lemma no_dangling_wrap (ds : list (Func DF)) node b :
  points_below (length (store b)) node →
  no_dangling_pointer b →
  no_dangling_pointer (wrap ds node b).2
  ∧ points_below (length (store (wrap ds node b).2)) (wrap ds node b).1.
Proof.
  revert node b. induction ds as [|d ds IH]; intros node b Hn Hb; [done|].
  cbn [wrap].
  destruct (no_dangling_make_shared
              (DecoratorObj (Decorator.new (C := NodePtr) d node)) b)
    as [Hb' Hn']; [|done|].
  { cbn. apply Forall_singleton. revert Hn. apply points_below_mono. lia. }
  destruct (make_shared _ b) as [node' b']. by apply IH.
Qed.

Lemma no_dangling_composite o b :
  pointers_of o = [] →
  no_dangling_pointer b →
  let '(n, b') := make_shared o b in no_dangling_pointer (push n (add n b')).
Proof.
  intros Ho Hb.
  destruct (no_dangling_make_shared o b) as [Hb' Hn']; [by rewrite Ho|done|].
  destruct (make_shared o b) as [n b']. cbn [fst snd] in *.
  apply no_dangling_push.
  - by rewrite BuilderMore.length_store_add.
  - by apply no_dangling_add.
Qed.
End BuilderInvariants.
End BuilderInvariants.

(** X22.  No builder obtained through the public member functions holds a
    dangling pointer: the children of every composite, the child of every
    decorator and every open composite on the stack are addresses of nodes
    that have been made, and the root is either null or such an address. *)
Theorem builder_never_dangles `{TypeInfo} {AF DF : Type}
    (b : Builder.t AF DF) :
  Builder.reachable b → no_dangling_pointer b.
Proof.
  induction 1 as [|b _ IH|b _ IH|s f b _ IH|func b _ IH|func b _ IH|b _ IH].
  - split; [done|]. split; [done|by left].
  - by apply (BuilderInvariants.no_dangling_composite
                (Builder.SequenceObj Sequence.new)).
  - by apply (BuilderInvariants.no_dangling_composite
                (Builder.SelectorObj Selector.new)).
  - by apply (BuilderInvariants.no_dangling_composite
                (Builder.ParallelObj (Parallel.new s f))).
  - by apply (BuilderInvariants.no_dangling_same b).
  - unfold Builder.action.
    destruct (BuilderInvariants.no_dangling_make_shared
                (Builder.ActionObj func) b) as [Hb' Hn']; [done|done|].
    destruct (Builder.make_shared _ b) as [node b1] eqn:Hm.
    cbn [fst snd] in Hb', Hn'.
    destruct (BuilderInvariants.no_dangling_wrap
                (reverse (Builder.decorators_ b1)) node b1 Hn' Hb')
      as [Hb2 Hn2].
    destruct (Builder.wrap _ node b1) as [node2 b2]. cbn [fst snd] in Hb2, Hn2.
    apply BuilderInvariants.no_dangling_add; [done|].
    by apply (BuilderInvariants.no_dangling_same b2).
  - unfold Builder.end_. destruct (decide _) as [Hne|]; [|done].
    destruct IH as (Hst & Hs & Hr). split; [done|]. split; [|done].
    cbn [Builder.stack_ Builder.store].
    destruct (Builder.stack_ b) as [|p l _] using rev_ind; [done|].
    rewrite removelast_last. by apply Forall_app in Hs as [Hs _].
Qed.

Lemma builder_never_dangles_witness :
  no_dangling_pointer
    (Builder.end_
       (Builder.action (scripted [Failure])
          (Builder.decorator decorators.Inverter
             (Builder.action (scripted [Success])
                (Builder.sequence (Builder.new (DF := unit))))))).
Proof.
  apply (builder_never_dangles (H := cpp_types)).
  apply Builder.reach_end, Builder.reach_action, Builder.reach_decorator,
    Builder.reach_action, Builder.reach_sequence, Builder.reach_new.
Defined.



Module BuilderRoot.
Import Builder.
Section BuilderRoot.
Context `{TypeInfo} {AF DF : Type}.
Implicit Types (b : t AF DF) (p n : NodePtr) (o : object AF DF).

(** One node-making call: nodes are added to the store, [add] is given the
    address [a], and the address may be pushed on the stack. *)
Lemma root_step b b' (a : nat) (pushed : list NodePtr) :
  store b' ≠ [] →
  root_ b' = (if decide (stack_ b = []) then Some a else root_ b) →
  stack_ b' = stack_ b ++ pushed →
  pushed = [] ∨ pushed = [Some a] →
  (root_ b = nullptr ↔ store b = [])
  ∧ (store b = [] → stack_ b = [])
  ∧ (stack_ b ≠ [] → head (stack_ b) = Some (root_ b)) →
  (root_ b' = nullptr ↔ store b' = [])
  ∧ (store b' = [] → stack_ b' = [])
  ∧ (stack_ b' ≠ [] → head (stack_ b') = Some (root_ b')).
Proof.
  intros Hst Hr Hs Hp (Hroot & Hempty & Hhead). rewrite Hr, Hs.
  destruct (decide (stack_ b = [])) as [Hnil|Hne].
  - rewrite Hnil. split; [done|]. split; [done|].
    by destruct Hp as [->| ->].
  - split; [|split; [done|]].
    + split; [|done]. intros Hnull. destruct Hne. by apply Hempty, Hroot.
    + intros _. specialize (Hhead Hne).
      by destruct (stack_ b) as [|q l].
Qed.

Lemma store_add_not_nil n b : store b ≠ [] → store (add n b) ≠ [].
Proof.
  intros Hne Hnil. apply Hne, length_zero_iff_nil.
  by rewrite <-(BuilderMore.length_store_add n b), Hnil.
Qed.

Lemma root_step_composite o b :
  let '(n, b') := make_shared o b in
  (root_ b = nullptr ↔ store b = [])
  ∧ (store b = [] → stack_ b = [])
  ∧ (stack_ b ≠ [] → head (stack_ b) = Some (root_ b)) →
  (root_ (push n (add n b')) = nullptr ↔ store (push n (add n b')) = [])
  ∧ (store (push n (add n b')) = [] → stack_ (push n (add n b')) = [])
  ∧ (stack_ (push n (add n b')) ≠ [] →
     head (stack_ (push n (add n b'))) = Some (root_ (push n (add n b')))).
Proof.
  cbn [make_shared]. apply (root_step b _ (length (store b)) [Some (length (store b))]).
  - cbn [push store]. apply store_add_not_nil. cbn. by destruct (store b).
  - cbn [push root_]. by rewrite BuilderMore.root_add.
  - cbn [push stack_]. by rewrite BuilderFacts.stack_add.
  - by right.
Qed.
End BuilderRoot.
End BuilderRoot.

(** X23.  On a builder obtained through the public member functions the root
    is null exactly when no node has been made yet, whatever decorators are
    pending; no composite is open before a node has been made; and while a
    composite is open the outermost open composite is the root. *)
Theorem builder_root_is_outermost `{TypeInfo} {AF DF : Type}
    (b : Builder.t AF DF) :
  Builder.reachable b →
  (Builder.root_ b = nullptr ↔ Builder.store b = [])
  ∧ (Builder.store b = [] → Builder.stack_ b = [])
  ∧ (Builder.stack_ b ≠ [] → head (Builder.stack_ b) = Some (Builder.root_ b)).
Proof.
  induction 1 as [|b _ IH|b _ IH|s f b _ IH|func b _ IH|func b _ IH|b _ IH].
  - done.
  - by apply (BuilderRoot.root_step_composite
                (Builder.SequenceObj Sequence.new) b).
  - by apply (BuilderRoot.root_step_composite
                (Builder.SelectorObj Selector.new) b).
  - by apply (BuilderRoot.root_step_composite
                (Builder.ParallelObj (Parallel.new s f)) b).
  - done.
  - rewrite BuilderSteps.action_spec.
    apply (BuilderRoot.root_step b _
             (length (Builder.store b) + length (Builder.decorators_ b)) []);
      [| | |by left|done].
    + apply BuilderRoot.store_add_not_nil. cbn. by destruct (Builder.store b).
    + by rewrite BuilderMore.root_add.
    + by rewrite BuilderFacts.stack_add, app_nil_r.
  - unfold Builder.end_. destruct (decide _) as [Hne|]; [|done].
    destruct IH as (Hroot & Hempty & Hhead).
    cbn [Builder.root_ Builder.store Builder.stack_].
    split; [done|]. split.
    + intros Hnil. by rewrite (Hempty Hnil).
    + specialize (Hhead Hne). revert Hhead.
      destruct (Builder.stack_ b) as [|p [|q l]]; [done|done|].
      intros Hhead _. exact Hhead.
Qed.

Lemma builder_root_is_outermost_witness :
  let b := Builder.action (scripted [Success])
             (Builder.selector
                (Builder.sequence
                   (Builder.decorator decorators.Inverter Builder.new))) in
  Builder.stack_ b = [Some 0; Some 1] ∧ Builder.root_ b = Some 0.
Proof.
  intros b. split; [reflexivity|].
  assert (Hb : Builder.reachable b)
    by apply Builder.reach_action, Builder.reach_selector,
         Builder.reach_sequence, Builder.reach_decorator, Builder.reach_new.
  assert (Hne : Builder.stack_ b ≠ []) by done.
  pose proof (proj2 (proj2 (builder_root_is_outermost (H := cpp_types) b Hb))
                Hne) as Hhead.
  exact (eq_sym (f_equal (default nullptr) Hhead)).
Defined.


Module BuilderComposites.
Import Builder.
Section BuilderComposites.
Context `{TypeInfo} {AF DF : Type}.
Implicit Types (b : t AF DF) (p n : NodePtr) (o : object AF DF).

Lemma decorators_add n b : decorators_ (add n b) = decorators_ b.
Proof.
  unfold add. destruct (last (stack_ b)) as [[a|]|]; try done.
  cbn. by destruct (store b !! a) as [[]|].
Qed.

Lemma length_store_action (func : Action.t AF) b :
  length (store (action func b))
  = S (length (store b) + length (decorators_ b)).
Proof.
  rewrite BuilderSteps.action_spec, BuilderMore.length_store_add.
  cbn [store]. rewrite length_app. cbn [length].
  rewrite length_imap, length_reverse. lia.
Qed.

(** The open composites were made before any node made from now on. *)
Lemma stack_below b :
  reachable b → Forall (points_below (length (store b))) (stack_ b).
Proof.
  assert (Hcomposite : ∀ o b,
    Forall (points_below (length (store b))) (stack_ b) →
    let '(n, b') := make_shared o b in
    Forall (points_below (length (store (push n (add n b')))))
           (stack_ (push n (add n b')))).
  { intros o b0 Hs. cbn [make_shared push store stack_].
    rewrite BuilderMore.length_store_add, BuilderFacts.stack_add.
    cbn [store stack_]. rewrite length_app, Nat.add_1_r.
    apply Forall_app. split; [|apply Forall_singleton; cbn; lia].
    eapply Forall_impl; [exact Hs|]. intros p.
    apply BuilderInvariants.points_below_mono. lia. }
  induction 1 as [|b _ IH|b _ IH|s f b _ IH|func b _ IH|func b _ IH|b _ IH].
  - done.
  - by apply (Hcomposite (SequenceObj Sequence.new)).
  - by apply (Hcomposite (SelectorObj Selector.new)).
  - by apply (Hcomposite (ParallelObj (Parallel.new s f))).
  - done.
  - rewrite length_store_action, BuilderSteps.action_spec,
      BuilderFacts.stack_add. cbn [stack_].
    eapply Forall_impl; [exact IH|]. intros p.
    apply BuilderInvariants.points_below_mono. lia.
  - unfold end_. destruct (decide _) as [Hne|]; [|done].
    cbn [stack_ store].
    destruct (stack_ b) as [|p l _] using rev_ind; [done|].
    rewrite removelast_last. by apply Forall_app in IH as [IH _].
Qed.

(** A composite made on a builder whose open composites were made before. *)
Lemma composite_fresh o b :
  Forall (points_below (length (store b))) (stack_ b) →
  let '(n, b') := make_shared o b in
  decorators_ (push n (add n b')) = decorators_ b
  ∧ deref (push n (add n b')) (Some (length (store b))) = Some o
  ∧ stack_ (push n (add n b')) = stack_ b ++ [Some (length (store b))].
Proof.
  intros Hs. cbn [make_shared push decorators_ stack_].
  rewrite decorators_add, BuilderFacts.stack_add. cbn [decorators_ stack_].
  split; [done|]. split; [|done].
  change (store (add (Some (length (store b)))
                   (mk (store b ++ [o]) (root_ b) (stack_ b)
                       (decorators_ b)))
            !! length (store b) = Some o).
  rewrite BuilderMore.store_add_other.
  - cbn [store]. by rewrite lookup_app_r, Nat.sub_diag by lia.
  - right. cbn [stack_]. intros Hl.
    apply last_Some in Hl as [l Hl]. rewrite Hl in Hs.
    apply Forall_app in Hs as [_ Hs]. apply Forall_inv in Hs.
    unfold points_below in Hs. lia.
Qed.
End BuilderComposites.
End BuilderComposites.

(** X24.  Pending decorators never wrap a composite.  [sequence()],
    [selector()] and [parallel()] store the new composite bare and without
    children at the next free address, open it, and leave the pending
    decorators as they were, for the next [action] to use. *)
Theorem builder_decorators_skip_composites `{TypeInfo} {AF DF : Type}
    (b : Builder.t AF DF) :
  Builder.reachable b →
  let fresh := Some (length (Builder.store b)) in
  (Builder.decorators_ (Builder.sequence b) = Builder.decorators_ b
   ∧ Builder.deref (Builder.sequence b) fresh
     = Some (Builder.SequenceObj Sequence.new)
   ∧ Builder.stack_ (Builder.sequence b) = Builder.stack_ b ++ [fresh])
  ∧ (Builder.decorators_ (Builder.selector b) = Builder.decorators_ b
     ∧ Builder.deref (Builder.selector b) fresh
       = Some (Builder.SelectorObj Selector.new)
     ∧ Builder.stack_ (Builder.selector b) = Builder.stack_ b ++ [fresh])
  ∧ (∀ s f,
       Builder.decorators_ (Builder.parallel s f b) = Builder.decorators_ b
       ∧ Builder.deref (Builder.parallel s f b) fresh
         = Some (Builder.ParallelObj (Parallel.new s f))
       ∧ Builder.stack_ (Builder.parallel s f b)
         = Builder.stack_ b ++ [fresh]).
Proof.
  intros Hb. apply BuilderComposites.stack_below in Hb. cbv zeta.
  split; [|split].
  - by apply (BuilderComposites.composite_fresh
                (Builder.SequenceObj Sequence.new) b).
  - by apply (BuilderComposites.composite_fresh
                (Builder.SelectorObj Selector.new) b).
  - intros s f.
    by apply (BuilderComposites.composite_fresh
                (Builder.ParallelObj (Parallel.new s f)) b).
Qed.

Lemma builder_decorators_skip_composites_witness :
  let b := Builder.decorator decorators.Inverter
             (Builder.selector (Builder.new (H := cpp_types) (AF := unit))) in
  Builder.decorators_ (Builder.sequence b) = [decorators.Inverter]
  ∧ Builder.deref (Builder.sequence b) (Some 1)
    = Some (Builder.SequenceObj Sequence.new).
Proof.
  intros b.
  assert (Hb : Builder.reachable b)
    by apply Builder.reach_decorator, Builder.reach_selector,
         Builder.reach_new.
  destruct (builder_decorators_skip_composites (H := cpp_types) b Hb)
    as [(Hd & Hn & _) _].
  split; [exact Hd|exact Hn].
Defined.

(** X25.  With no composite open, the node a call makes becomes the root in
    place of whatever the root was: of several nodes made at the top level
    the last one is the tree, and for [action] it is the outermost of the
    pending decorators. *)
Theorem builder_last_top_level_node_wins `{TypeInfo} {AF DF : Type}
    (b : Builder.t AF DF) :
  Builder.stack_ b = [] →
  let len := length (Builder.store b) in
  (∀ func, Builder.root_ (Builder.action func b)
           = Some (len + length (Builder.decorators_ b)))
  ∧ Builder.root_ (Builder.sequence b) = Some len
  ∧ Builder.root_ (Builder.selector b) = Some len
  ∧ (∀ s f, Builder.root_ (Builder.parallel s f b) = Some len).
Proof.
  intros Hs. cbv zeta. split; [|split; [|split]].
  - intros func.
    by rewrite BuilderSteps.action_spec, BuilderMore.root_add, decide_True.
  - unfold Builder.sequence. cbn [Builder.make_shared Builder.push
      Builder.root_]. by rewrite BuilderMore.root_add, decide_True.
  - unfold Builder.selector. cbn [Builder.make_shared Builder.push
      Builder.root_]. by rewrite BuilderMore.root_add, decide_True.
  - intros s f. unfold Builder.parallel. cbn [Builder.make_shared Builder.push
      Builder.root_]. by rewrite BuilderMore.root_add, decide_True.
Qed.

Lemma builder_last_top_level_node_wins_witness :
  let b := Builder.end_
             (Builder.action (scripted [Success])
                (Builder.sequence (Builder.new (DF := unit)))) in
  Builder.root_ b = Some 0
  ∧ Builder.root_ (Builder.action (scripted [Failure]) b) = Some 2.
Proof.
  intros b. split; [reflexivity|].
  exact (proj1 (builder_last_top_level_node_wins (H := cpp_types) b eq_refl)
           (scripted [Failure])).
Defined.

(** X26.  [end()] closes the composite opened last and nothing else: right
    after [sequence()], [selector()] or [parallel()] it gives back the stack
    of open composites as it was before, it never changes the store, the
    root or the pending decorators, and with no composite open it does
    nothing, without a report. *)
Theorem builder_end_closes_innermost `{TypeInfo} {AF DF : Type}
    (b : Builder.t AF DF) :
  Builder.stack_ (Builder.end_ (Builder.sequence b)) = Builder.stack_ b
  ∧ Builder.stack_ (Builder.end_ (Builder.selector b)) = Builder.stack_ b
  ∧ (∀ s f, Builder.stack_ (Builder.end_ (Builder.parallel s f b))
            = Builder.stack_ b)
  ∧ Builder.store (Builder.end_ b) = Builder.store b
  ∧ Builder.root_ (Builder.end_ b) = Builder.root_ b
  ∧ Builder.decorators_ (Builder.end_ b) = Builder.decorators_ b
  ∧ (Builder.stack_ b = [] → Builder.end_ b = b).
Proof.
  assert (Hpop : ∀ (b' : Builder.t AF DF) n,
            Builder.stack_ (Builder.end_ (Builder.push n b'))
            = Builder.stack_ b').
  { intros b' n. unfold Builder.end_. cbn [Builder.push Builder.stack_].
    rewrite decide_True by (by destruct (Builder.stack_ b')).
    cbn [Builder.stack_]. by rewrite removelast_last. }
  split; [|split; [|split; [|split; [|split; [|split]]]]].
  - unfold Builder.sequence. cbn [Builder.make_shared].
    by rewrite Hpop, BuilderFacts.stack_add.
  - unfold Builder.selector. cbn [Builder.make_shared].
    by rewrite Hpop, BuilderFacts.stack_add.
  - intros s f. unfold Builder.parallel. cbn [Builder.make_shared].
    by rewrite Hpop, BuilderFacts.stack_add.
  - unfold Builder.end_. by destruct (decide _).
  - unfold Builder.end_. by destruct (decide _).
  - unfold Builder.end_. by destruct (decide _).
  - intros Hs. unfold Builder.end_. by rewrite decide_False by (by intros []).
Qed.

Lemma builder_end_closes_innermost_witness :
  Builder.end_ (Builder.decorator decorators.Inverter
                  (Builder.new (H := cpp_types) (AF := unit)))
  = Builder.decorator decorators.Inverter Builder.new.
Proof.
  exact (proj2 (proj2 (proj2 (proj2 (proj2 (proj2
           (builder_end_closes_innermost (H := cpp_types)
              (Builder.decorator decorators.Inverter
                 (Builder.new (H := cpp_types) (AF := unit)))))))))
           eq_refl).
Defined.
